(** * The stereo-matching demo and the camera interfaces of rgbd-grabber

    A shallow embedding of [example/stereo_match.cpp] ([main]: the
    command-line parser, the calibration checks, the start-up sequence and
    the default parameters) and of the [UVCamera] interface declared in
    [include/rgbd/camera/UVCamera.h].

    C [int] values are integers of [Z] kept in the 32-bit range, C strings
    are [string]s, a [const char*] that may be null is an [option string],
    and the observable behaviour of a run is the list of its events
    (what it prints, which camera it starts, which file it opens) together
    with the way the run ends.  The model of [main] stops where the loop
    over the frames begins: from there on the program only calls the
    vision and the point-cloud libraries. *)

From Stdlib Require Import ZArith List Bool Ascii String Lia Wf_nat.
Import ListNotations.

Local Open Scope string_scope.
Local Open Scope Z_scope.

(** ** C integers *)

Module CInt.

Definition INT_MIN : Z := - 2 ^ 31.
Definition INT_MAX : Z := 2 ^ 31 - 1.
Definition LONG_MIN : Z := - 2 ^ 63.
Definition LONG_MAX : Z := 2 ^ 63 - 1.

Definition in_int (z : Z) : Prop := INT_MIN <= z <= INT_MAX.

(** Two's-complement reduction of an integer to a 32-bit [int]. *)
Definition wrap (z : Z) : Z := (z + 2 ^ 31) mod 2 ^ 32 - 2 ^ 31.

(** What [strtol] does with a value that does not fit a [long]. *)
Definition clamp_long (z : Z) : Z := Z.max LONG_MIN (Z.min LONG_MAX z).

End CInt.

(** ** C strings *)

Module CString.

(** [s + n]: the string that starts [n] characters into [s]. *)
Fixpoint advance (n : nat) (s : string) : string :=
  match n, s with
  | O, _ => s
  | S _, EmptyString => EmptyString
  | S m, String _ r => advance m r
  end.

(** [strncmp(s, opt, strlen(opt)) == 0]: [opt] is an initial part of [s]. *)
Definition strncmp_eq (s opt : string) : bool := String.prefix opt s.

(** [strcmp(s, t) == 0]. *)
Definition strcmp_eq (s t : string) : bool := String.eqb s t.

Definition isspace (c : ascii) : bool :=
  let n := N_of_ascii c in
  (N.eqb n 32 || (N.leb 9 n && N.leb n 13))%bool.

Definition digit (c : ascii) : option Z :=
  let n := N_of_ascii c in
  if (N.leb 48 n && N.leb n 57)%bool then Some (Z.of_N n - 48) else None.

Fixpoint skip_spaces (s : string) : string :=
  match s with
  | String c r => if isspace c then skip_spaces r else s
  | EmptyString => s
  end.

(** The value of the longest run of decimal digits that starts [s], on top
    of the digits already read ([acc]); [None] when there is no digit. *)
Fixpoint digits (s : string) (acc : option Z) : option Z :=
  match s with
  | String c r =>
      match digit c with
      | Some d =>
          digits r (Some (10 * match acc with Some a => a | None => 0 end + d))
      | None => acc
      end
  | EmptyString => acc
  end.

(** The integer that the conversion [%d] matches at the start of [s]:
    white space is skipped, a sign is optional, at least one digit is
    needed; what follows the digits is left unread. *)
Definition scan_decimal (s : string) : option Z :=
  match skip_spaces s with
  | String "-" r => option_map Z.opp (digits r None)
  | String "+" r => digits r None
  | r => digits r None
  end.

(** [sscanf(s, "%d", &x)]: [Some x] when the call returns 1, [None] when
    it returns 0 or [EOF] (and leaves [x] alone).  A value that does not
    fit an [int] is outside ISO C; the model follows glibc, which converts
    with [strtol] and stores the low 32 bits of the [long]. *)
Definition sscanf_d (s : string) : option Z :=
  option_map (fun v => CInt.wrap (CInt.clamp_long v)) (scan_decimal s).

End CString.

Import CString.

(** ** Runs: events, endings and the monad that sequences them *)

Inductive camera_id := LeftCamera | RightCamera.

Inductive event :=
| EvPrintf (text : string)
| EvCameraStart (cam : camera_id)
| EvFileOpen (name : string) (opened : bool).

(** The parameters that [main] hands to the three matchers. *)
Record matcher_params := mkParams {
  algorithm : Z;
  bm_SADWindowSize : Z;
  bm_numberOfDisparities : Z;
  sgbm_SADWindowSize : Z;
  sgbm_P1 : Z;
  sgbm_P2 : Z;
  sgbm_numberOfDisparities : Z;
  sgbm_fullDP : bool;
  var_minDisp : Z
}.

Inductive ending :=
| Return (code : Z)       (* [main] returns [code] *)
| Uncaught                (* a camera failed to start: nothing catches it *)
| Undefined               (* a null pointer used as a file name *)
| FrameLoop (p : matcher_params).
                          (* the loop over the frames is entered *)

Definition run (A : Type) : Type := (list event * (A + ending))%type.

Definition ret {A} (a : A) : run A := ([], inl a).

Definition emit (e : event) : run unit := ([e], inl tt).

Definition halt {A} (h : ending) : run A := ([], inr h).

Definition bind {A B} (m : run A) (k : A -> run B) : run B :=
  match m with
  | (t, inl a) => let (t', r) := k a in ((t ++ t')%list, r)
  | (t, inr h) => (t, inr h)
  end.

Declare Scope run_scope.
Delimit Scope run_scope with run.
Notation "x <- m ;; k" := (bind m (fun x => k))
  (at level 61, m at next level, right associativity) : run_scope.
Notation "m ;; k" := (bind m (fun _ => k))
  (at level 61, right associativity) : run_scope.
Local Open Scope run_scope.

Definition printf (text : string) : run unit := emit (EvPrintf text).

(** The events of a run and its ending, when it has one. *)
Definition events {A} (m : run A) : list event := fst m.

Definition ending_of (m : run unit) : option ending :=
  match snd m with inl _ => None | inr h => Some h end.

(** ** [print_help] *)

Definition help_banner : string :=
  String "010" "Demo stereo matching converting L and R images into disparity and point clouds" ++ String "010" "".

Definition help_usage : string :=
  String "010" "Usage: stereo_match <left_image> <right_image> [--algorithm=bm|sgbm|hh|var] [--blocksize=<block_size>]" ++ String "010"
  "[--max-disparity=<max_disparity>] [--scale=scale_factor>] [-i <intrinsic_filename>] [-e <extrinsic_filename>]" ++ String "010"
  "[--no-display] [-o <disparity_image>] [-p <point_cloud_file>]" ++ String "010" "".

Definition print_help : run unit :=
  printf help_banner ;; printf help_usage.

(** ** The variables of [main] that the parser sets *)

Definition STEREO_BM : Z := 0.
Definition STEREO_SGBM : Z := 1.
Definition STEREO_HH : Z := 2.
Definition STEREO_VAR : Z := 3.

Record options := mkOptions {
  alg : Z;
  SADWindowSize : Z;
  numberOfDisparities : Z;
  no_display : bool;
  intrinsic_filename : option string;
  extrinsic_filename : option string;
  disparity_filename : option string;
  point_cloud_filename : option string
}.

(** Their values when the loop over [argv] starts. *)
Definition initial_options : options :=
  mkOptions STEREO_SGBM 0 0 false None None None None.

Definition set_alg (v : Z) (o : options) : options :=
  mkOptions v (SADWindowSize o) (numberOfDisparities o) (no_display o)
    (intrinsic_filename o) (extrinsic_filename o) (disparity_filename o)
    (point_cloud_filename o).

Definition set_SADWindowSize (v : Z) (o : options) : options :=
  mkOptions (alg o) v (numberOfDisparities o) (no_display o)
    (intrinsic_filename o) (extrinsic_filename o) (disparity_filename o)
    (point_cloud_filename o).

Definition set_numberOfDisparities (v : Z) (o : options) : options :=
  mkOptions (alg o) (SADWindowSize o) v (no_display o)
    (intrinsic_filename o) (extrinsic_filename o) (disparity_filename o)
    (point_cloud_filename o).

Definition set_no_display (v : bool) (o : options) : options :=
  mkOptions (alg o) (SADWindowSize o) (numberOfDisparities o) v
    (intrinsic_filename o) (extrinsic_filename o) (disparity_filename o)
    (point_cloud_filename o).

Definition set_intrinsic_filename (v : option string) (o : options) : options :=
  mkOptions (alg o) (SADWindowSize o) (numberOfDisparities o) (no_display o)
    v (extrinsic_filename o) (disparity_filename o) (point_cloud_filename o).

Definition set_extrinsic_filename (v : option string) (o : options) : options :=
  mkOptions (alg o) (SADWindowSize o) (numberOfDisparities o) (no_display o)
    (intrinsic_filename o) v (disparity_filename o) (point_cloud_filename o).

Definition set_disparity_filename (v : option string) (o : options) : options :=
  mkOptions (alg o) (SADWindowSize o) (numberOfDisparities o) (no_display o)
    (intrinsic_filename o) (extrinsic_filename o) v (point_cloud_filename o).

Definition set_point_cloud_filename (v : option string) (o : options) : options :=
  mkOptions (alg o) (SADWindowSize o) (numberOfDisparities o) (no_display o)
    (intrinsic_filename o) (extrinsic_filename o) (disparity_filename o) v.

(** ** The option names and the messages *)

Definition algorithm_opt : string := "--algorithm=".
Definition maxdisp_opt : string := "--max-disparity=".
Definition blocksize_opt : string := "--blocksize=".
Definition nodisplay_opt : string := "--no-display".
Definition scale_opt : string := "--scale=".

Definition nl : string := String "010" "".

Definition msg_unknown_algorithm : string :=
  "Command-line parameter error: Unknown stereo algorithm" ++ nl ++ nl.

Definition msg_max_disparity : string :=
  "Command-line parameter error: The max disparity (--maxdisparity=<...>) must be a positive integer divisible by 16" ++ nl.

Definition msg_block_size : string :=
  "Command-line parameter error: The block size (--blocksize=<...>) must be a positive odd number" ++ nl.

Definition msg_unknown_option (a : string) : string :=
  "Command-line parameter error: unknown option " ++ a ++ nl.

Definition msg_calibration_pair : string :=
  "Command-line parameter error: either both intrinsic and extrinsic parameters must be specified, or none of them (when the stereo pair is already rectified)" ++ nl.

Definition msg_point_cloud : string :=
  "Command-line parameter error: extrinsic and intrinsic parameters must be specified to compute the point cloud" ++ nl.

Definition msg_failed_open (f : string) : string :=
  "Failed to open file " ++ f ++ nl.

(** ** The loop over [argv] *)

(** What one turn of the loop does with [argv[i]]: it leaves [main] after
    some output, it goes on with new values, or it reads [argv[++i]] and
    goes on with values that depend on it. *)
Inductive action :=
| Stop (output : run unit) (code : Z)
| Next (o : options)
| Take (k : option string -> options).

(** The chain of tests in the body of the loop, on [a = argv[i]]. *)
Definition classify (a : string) (o : options) : action :=
  if strncmp_eq a algorithm_opt then
    let _alg := advance (String.length algorithm_opt) a in
    let alg' :=
      if strcmp_eq _alg "bm" then STEREO_BM
      else if strcmp_eq _alg "sgbm" then STEREO_SGBM
      else if strcmp_eq _alg "hh" then STEREO_HH
      else if strcmp_eq _alg "var" then STEREO_VAR
      else -1 in
    if alg' <? 0
    then Stop (printf msg_unknown_algorithm ;; print_help) (-1)
    else Next (set_alg alg' o)
  else if strncmp_eq a maxdisp_opt then
    match sscanf_d (advance (String.length maxdisp_opt) a) with
    | None => Stop (printf msg_max_disparity ;; print_help) (-1)
    | Some d =>
        if (d <? 1) || negb (Z.rem d 16 =? 0)
        then Stop (printf msg_max_disparity ;; print_help) (-1)
        else Next (set_numberOfDisparities d o)
    end
  else if strncmp_eq a blocksize_opt then
    match sscanf_d (advance (String.length blocksize_opt) a) with
    | None => Stop (printf msg_block_size) (-1)
    | Some b =>
        if (b <? 1) || negb (Z.rem b 2 =? 1)
        then Stop (printf msg_block_size) (-1)
        else Next (set_SADWindowSize b o)
    end
  else if strcmp_eq a nodisplay_opt then Next (set_no_display true o)
  else if strcmp_eq a "-i" then Take (fun v => set_intrinsic_filename v o)
  else if strcmp_eq a "-e" then Take (fun v => set_extrinsic_filename v o)
  else if strcmp_eq a "-o" then Take (fun v => set_disparity_filename v o)
  else if strcmp_eq a "-p" then Take (fun v => set_point_cloud_filename v o)
  else Stop (printf (msg_unknown_option a)) (-1).

(** [for (int i = 1; i < argc; i++)], on the arguments [argv[i..argc-1]]
    that are still to be read.  [argv[argc]] is the null pointer: a flag
    that reads [argv[++i]] when it is the last argument gets it, and
    the loop ends, [i] being [argc]. *)
Fixpoint parse_loop (args : list string) (o : options) : run options :=
  match args with
  | [] => ret o
  | a :: rest =>
      match classify a o with
      | Stop output code => output ;; halt (Return code)
      | Next o' => parse_loop rest o'
      | Take k =>
          match rest with
          | [] => ret (k None)
          | v :: rest' => parse_loop rest' (k (Some v))
          end
      end
  end.

(** The loop, started at [args] with [o], comes to the top of a turn with
    [args'] still to be read and the values [o']. *)
Inductive loop_at (args : list string) (o : options) :
  list string -> options -> Prop :=
| loop_start : loop_at args o args o
| loop_next a rest o1 o2 :
    loop_at args o (a :: rest) o1 ->
    classify a o1 = Next o2 ->
    loop_at args o rest o2
| loop_take a v rest o1 k :
    loop_at args o (a :: v :: rest) o1 ->
    classify a o1 = Take k ->
    loop_at args o rest (k (Some v)).

(** ** After the loop: the two checks on the calibration flags *)

Definition is_given (f : option string) : bool :=
  match f with Some _ => true | None => false end.

Definition check_calibration_pair (o : options) : run unit :=
  if xorb (is_given (intrinsic_filename o)) (is_given (extrinsic_filename o))
  then printf msg_calibration_pair ;; halt (Return (-1))
  else ret tt.

Definition check_point_cloud (o : options) : run unit :=
  if negb (is_given (extrinsic_filename o)) && is_given (point_cloud_filename o)
  then printf msg_point_cloud ;; halt (Return (-1))
  else ret tt.

(** ** What [main] finds outside: the cameras and the files *)

Record world := mkWorld {
  camera_starts : camera_id -> bool;   (* [UEye::start] comes back *)
  color_width : camera_id -> Z;        (* [colorSize().width] *)
  file_opens : string -> bool          (* [FileStorage::isOpened] *)
}.

Definition start_camera (w : world) (c : camera_id) : run unit :=
  emit (EvCameraStart c) ;;
  if camera_starts w c then ret tt else halt Uncaught.

(** [FileStorage fs(name, CV_STORAGE_READ)] or [fs.open(name, ...)] and
    the test of [fs.isOpened()] that follows it. *)
Definition open_storage (w : world) (name : option string) : run unit :=
  match name with
  | None => halt Undefined
  | Some f =>
      emit (EvFileOpen f (file_opens w f)) ;;
      if file_opens w f then ret tt
      else printf (msg_failed_open f) ;; halt (Return (-1))
  end.

(** [if (intrinsic_filename) { ... }]: the two files are opened in turn;
    rectification and remapping are library calls on what they hold. *)
Definition load_calibration (w : world) (o : options) : run unit :=
  match intrinsic_filename o with
  | None => ret tt
  | Some f =>
      open_storage w (Some f) ;;
      open_storage w (extrinsic_filename o)
  end.

(** [((width / 8) + 15) & -16] *)
Definition default_disparities (width : Z) : Z :=
  Z.land (CInt.wrap (Z.quot width 8 + 15)) (-16).

(** [numberOfDisparities > 0 ? numberOfDisparities : ...] *)
Definition choose_disparities (n width : Z) : Z :=
  if n >? 0 then n else default_disparities width.

(** The number of channels of [img1], a [CV_8UC3] image. *)
Definition cn : Z := 3.

Definition matcher_setup (o : options) (width : Z) : matcher_params :=
  let n := choose_disparities (numberOfDisparities o) width in
  let bm_sad := if SADWindowSize o >? 0 then SADWindowSize o else 9 in
  let sgbm_sad := if SADWindowSize o >? 0 then SADWindowSize o else 3 in
  mkParams (alg o) bm_sad n sgbm_sad
    (CInt.wrap (CInt.wrap (CInt.wrap (8 * cn) * sgbm_sad) * sgbm_sad))
    (CInt.wrap (CInt.wrap (CInt.wrap (32 * cn) * sgbm_sad) * sgbm_sad))
    n (alg o =? STEREO_HH) (CInt.wrap (- n)).

(** From the construction of the cameras to the loop over the frames. *)
Definition run_demo (w : world) (o : options) : run unit :=
  start_camera w LeftCamera ;;
  start_camera w RightCamera ;;
  load_calibration w o ;;
  halt (FrameLoop (matcher_setup o (color_width w LeftCamera))).

Definition after_parsing (w : world) (o : options) : run unit :=
  check_calibration_pair o ;;
  check_point_cloud o ;;
  run_demo w o.

(** [main(argc, argv)], on [args = argv[1..argc-1]]. *)
Definition main (w : world) (args : list string) : run unit :=
  let argc := 1 + Z.of_nat (List.length args) in
  if argc <? 3 then print_help ;; halt (Return 0)
  else
    o <- parse_loop args initial_options ;;
    after_parsing w o.

(** A camera has been started somewhere in a list of events. *)
Definition camera_started (t : list event) : Prop :=
  exists c, In (EvCameraStart c) t.

(** The runs that end at a parameter error or at the usage text. *)
Definition usage_shown : run unit :=
  ([EvPrintf help_banner; EvPrintf help_usage], inr (Return 0)).

Definition max_disparity_error : run unit :=
  ([EvPrintf msg_max_disparity; EvPrintf help_banner; EvPrintf help_usage],
   inr (Return (-1))).

Definition block_size_error : run unit :=
  ([EvPrintf msg_block_size], inr (Return (-1))).

Definition unknown_option_error (a : string) : run unit :=
  ([EvPrintf (msg_unknown_option a)], inr (Return (-1))).

Definition calibration_pair_error : run unit :=
  ([EvPrintf msg_calibration_pair], inr (Return (-1))).

Definition point_cloud_error : run unit :=
  ([EvPrintf msg_point_cloud], inr (Return (-1))).

(** Every event of a list is a line printed. *)
Definition only_prints (t : list event) : Prop :=
  Forall (fun e => exists s, e = EvPrintf s) t.

(** A world in which both cameras start, with 640 columns, and no file
    can be opened. *)
Definition bare_world : world :=
  mkWorld (fun _ => true) (fun _ => 640) (fun _ => false).

(** A world in which both cameras start and every file can be opened. *)
Definition ready_world : world :=
  mkWorld (fun _ => true) (fun _ => 640) (fun _ => true).

(** The file name that a value-taking flag sets, and its assignment. *)
Definition filename_of (flag : string) (o : options) : option string :=
  if strcmp_eq flag "-i" then intrinsic_filename o
  else if strcmp_eq flag "-e" then extrinsic_filename o
  else if strcmp_eq flag "-o" then disparity_filename o
  else point_cloud_filename o.

Definition set_filename (flag : string) (v : option string) (o : options)
  : options :=
  if strcmp_eq flag "-i" then set_intrinsic_filename v o
  else if strcmp_eq flag "-e" then set_extrinsic_filename v o
  else if strcmp_eq flag "-o" then set_disparity_filename v o
  else set_point_cloud_filename v o.

Definition value_flags : list string := ["-i"; "-e"; "-o"; "-p"].

(** ** [UVCamera]

    [UVCamera.h] declares the class: its constructor with the defaults
    [cv::Size(640, 480)] and [60.0], the members [_capture], [_size]
    (const), [_usleep] (const), [_buffer] and [_mutex], and the methods
    [colorSize], [start], [captureColor] and [update].  The bodies are in a
    file that is not part of the sources at hand. *)

Module UVCamera.













End UVCamera.

(** ** Further notions about [main] *)

(** The names that [--algorithm=] takes and the values of [alg] they
    stand for. *)
Definition algorithm_names : list (string * Z) :=
  [("bm", STEREO_BM); ("sgbm", STEREO_SGBM); ("hh", STEREO_HH);
   ("var", STEREO_VAR)].

Definition unknown_algorithm_error : run unit :=
  ([EvPrintf msg_unknown_algorithm; EvPrintf help_banner;
    EvPrintf help_usage], inr (Return (-1))).

(** What the tests of the loop let through: a known algorithm, and for
    the two numbers either the 0 they start with or a value that passed
    the test of its flag. *)
Definition valid_options (o : options) : Prop :=
  In (alg o) [STEREO_BM; STEREO_SGBM; STEREO_HH; STEREO_VAR] /\
  (numberOfDisparities o = 0 \/
   (0 < numberOfDisparities o <= CInt.INT_MAX /\
    Z.rem (numberOfDisparities o) 16 = 0)) /\
  (SADWindowSize o = 0 \/
   (0 < SADWindowSize o <= CInt.INT_MAX /\ Z.rem (SADWindowSize o) 2 = 1)).

(** Two sets of values that differ at most in [no_display] and in
    [disparity_filename]. *)
Definition same_but_unused (o1 o2 : options) : Prop :=
  alg o1 = alg o2 /\
  SADWindowSize o1 = SADWindowSize o2 /\
  numberOfDisparities o1 = numberOfDisparities o2 /\
  intrinsic_filename o1 = intrinsic_filename o2 /\
  extrinsic_filename o1 = extrinsic_filename o2 /\
  point_cloud_filename o1 = point_cloud_filename o2.

(** The matcher that a turn of the loop over the frames calls:
    [if (alg == STEREO_BM) bm(...); else if (alg == STEREO_VAR) var(...);
     else if (alg == STEREO_SGBM || alg == STEREO_HH) sgbm(...);]
    and no matcher at all for another value. *)
Inductive matcher := StereoBM | StereoVar | StereoSGBM.

Definition select_matcher (a : Z) : option matcher :=
  if a =? STEREO_BM then Some StereoBM
  else if a =? STEREO_VAR then Some StereoVar
  else if (a =? STEREO_SGBM) || (a =? STEREO_HH) then Some StereoSGBM
  else None.

(** The first character of an argument is a dash. *)
Definition starts_with_dash (a : string) : bool := String.prefix "-" a.

(** ** The command line as the loop reads it *)

Definition is_value_flag (a : string) : bool :=
  existsb (String.eqb a) value_flags.

(** The arguments that the loop reads as flags, from left to right, each
    of [-i], [-e], [-o], [-p] with the argument behind it, which the loop
    takes as its value ([None] when the flag is the last argument); the
    arguments taken as values are not read as flags. *)
Fixpoint read_flags (args : list string) : list (string * option string) :=
  match args with
  | [] => []
  | a :: rest =>
      if is_value_flag a then
        match rest with
        | [] => [(a, None)]
        | v :: rest' => (a, Some v) :: read_flags rest'
        end
      else (a, None) :: read_flags rest
  end.

Fixpoint last_value (flag : string) (l : list (string * option string))
  (cur : option string) : option string :=
  match l with
  | [] => cur
  | (a, v) :: r => last_value flag r (if String.eqb a flag then v else cur)
  end.

(** The file name in effect for a flag on a command line: the value of
    the last occurrence that is read as a flag; none when there is no
    such occurrence or when the last one has no value. *)
Definition flag_value (flag : string) (args : list string) : option string :=
  last_value flag (read_flags args) None.

Fixpoint last_number_in (opt : string) (l : list (string * option string))
  (cur : option Z) : option Z :=
  match l with
  | [] => cur
  | (a, _) :: r =>
      last_number_in opt r
        (if strncmp_eq a opt
         then sscanf_d (advance (String.length opt) a) else cur)
  end.

(** The number in effect for [--max-disparity=] or [--blocksize=] on a
    command line: what [sscanf] reads from the last flag with that name
    that is read as a flag. *)
Definition last_number (opt : string) (args : list string) : option Z :=
  last_number_in opt (read_flags args) None.

(** A variable holds the number in effect: the number, which is positive,
    or the 0 it starts with. *)
Definition holds_number (cur : option Z) (n : Z) : Prop :=
  match cur with
  | Some d => n = d /\ 0 < d
  | None => n = 0
  end.

(** * Properties *)

(** ** The monad *)

Lemma bind_ret {A B} (a : A) (k : A -> run B) : bind (ret a) k = k a.
Proof. unfold bind, ret. destruct (k a); reflexivity. Qed.

Lemma bind_stop {A B} (t : list event) (h : ending) (k : A -> run B) :
  bind (t, inr h) k = (t, inr h).
Proof. reflexivity. Qed.

(** ** The loop over [argv] *)

#[local] Hint Constructors loop_at : core.

(** From a point that the loop comes to, it goes on as from the start. *)
Lemma parse_loop_at args o args' o' :
  loop_at args o args' o' -> parse_loop args o = parse_loop args' o'.
Proof.
  induction 1 as [| a rest o1 o2 _ IH Hc | a v rest o1 k _ IH Hc].
  - reflexivity.
  - rewrite IH. simpl. now rewrite Hc.
  - rewrite IH. simpl. now rewrite Hc.
Qed.

(** What the loop has read when it comes to a point is an initial part
    of the arguments, and it is read alike before any other rest. *)
Lemma loop_at_prefix args o args' o' :
  loop_at args o args' o' ->
  exists pre, args = (pre ++ args')%list /\
              forall m, loop_at (pre ++ m)%list o m o'.
Proof.
  induction 1 as [| a rest o1 o2 _ IH Hc | a v rest o1 k _ IH Hc].
  - exists []. split; [reflexivity | intros m; apply loop_start].
  - destruct IH as (pre & -> & Hm).
    exists (pre ++ [a])%list. split.
    + now rewrite <- app_assoc.
    + intros m. rewrite <- app_assoc. simpl.
      eapply loop_next; [apply Hm | exact Hc].
  - destruct IH as (pre & -> & Hm).
    exists (pre ++ [a; v])%list. split.
    + now rewrite <- app_assoc.
    + intros m. rewrite <- app_assoc. simpl.
      eapply loop_take; [apply Hm | exact Hc].
Qed.

(** The loop prints only when it leaves [main], and then with [-1]. *)
Lemma classify_stop a o output code :
  classify a o = Stop output code ->
  code = -1 /\ exists t, output = (t, inl tt) /\ only_prints t /\ t <> [].
Proof.
  unfold classify, only_prints.
  repeat match goal with
         | |- context [if ?b then _ else _] => destruct b
         | |- context [match ?x with Some _ => _ | None => _ end] => destruct x
         end;
    intros H; inversion H; subst; (split; [reflexivity |]);
    eexists; (split; [reflexivity |]); split;
    try discriminate; repeat constructor; eexists; reflexivity.
Qed.

Lemma parse_loop_cases args o :
  (exists o', parse_loop args o = ret o') \/
  (exists t, parse_loop args o = (t, inr (Return (-1))) /\
             only_prints t /\ t <> []).
Proof.
  remember (List.length args) as n eqn:Hn. revert args o Hn.
  induction n as [n IH] using lt_wf_ind. intros args o ->.
  destruct args as [| a rest]; simpl.
  - left. now exists o.
  - destruct (classify a o) as [output code | o' | k] eqn:Hc.
    + right. apply classify_stop in Hc as (-> & t & -> & Hp & Hne).
      exists t. split; [| now split].
      unfold bind, halt. now rewrite app_nil_r.
    + eapply IH; [| reflexivity]. simpl. lia.
    + destruct rest as [| v rest'].
      * left. now eexists.
      * eapply IH; [| reflexivity]. simpl. lia.
Qed.

(** ** [main] before and after the loop *)

Lemma main_short w args :
  (List.length args < 2)%nat ->
  main w args = usage_shown.
Proof.
  intros H. unfold main.
  destruct (1 + Z.of_nat (List.length args) <? 3) eqn:E.
  - reflexivity.
  - apply Z.ltb_ge in E. lia.
Qed.

Lemma main_parses w args :
  (2 <= List.length args)%nat ->
  main w args = bind (parse_loop args initial_options) (after_parsing w).
Proof.
  intros H. unfold main.
  destruct (1 + Z.of_nat (List.length args) <? 3) eqn:E.
  - apply Z.ltb_lt in E. lia.
  - reflexivity.
Qed.

(** When the loop leaves [main] at some point, so does [main]. *)
Lemma main_stops_at w args a rest o output code :
  (2 <= List.length args)%nat ->
  loop_at args initial_options (a :: rest) o ->
  classify a o = Stop output code ->
  main w args = bind (output ;; halt (Return code)) (after_parsing w).
Proof.
  intros Hlen Hat Hc.
  rewrite main_parses by assumption.
  rewrite (parse_loop_at _ _ _ _ Hat). simpl. now rewrite Hc.
Qed.

(** ** The branches of the loop, flag by flag *)

Lemma classify_maxdisp v o :
  classify (maxdisp_opt ++ v) o =
  match sscanf_d v with
  | None => Stop (printf msg_max_disparity ;; print_help) (-1)
  | Some d =>
      if (d <? 1) || negb (Z.rem d 16 =? 0)
      then Stop (printf msg_max_disparity ;; print_help) (-1)
      else Next (set_numberOfDisparities d o)
  end.
Proof.
  unfold classify, strncmp_eq, maxdisp_opt, algorithm_opt. simpl.
  destruct v; reflexivity.
Qed.

Lemma classify_blocksize v o :
  classify (blocksize_opt ++ v) o =
  match sscanf_d v with
  | None => Stop (printf msg_block_size) (-1)
  | Some b =>
      if (b <? 1) || negb (Z.rem b 2 =? 1)
      then Stop (printf msg_block_size) (-1)
      else Next (set_SADWindowSize b o)
  end.
Proof.
  unfold classify, strncmp_eq, blocksize_opt, maxdisp_opt, algorithm_opt.
  simpl. destruct v; reflexivity.
Qed.

Lemma classify_scale f o :
  classify (scale_opt ++ f) o =
  Stop (printf (msg_unknown_option (scale_opt ++ f))) (-1).
Proof.
  unfold classify, strncmp_eq, strcmp_eq, scale_opt, blocksize_opt,
    maxdisp_opt, algorithm_opt, nodisplay_opt.
  simpl. reflexivity.
Qed.

Lemma classify_value_flag flag o :
  In flag value_flags ->
  classify flag o = Take (fun v => set_filename flag v o).
Proof.
  unfold value_flags. simpl.
  intros [<- | [<- | [<- | [<- | []]]]]; reflexivity.
Qed.

(** The scenario of the specification in which everything is given: SGBM
    is selected, 64 disparities, a window of 9, and the run goes on to the
    cameras and the calibration files. *)
Example full_command_line :
  parse_loop ["--algorithm=sgbm"; "--max-disparity=64"; "--blocksize=9";
              "-i"; "intr.yml"; "-e"; "extr.yml"] initial_options =
    ret (mkOptions STEREO_SGBM 9 64 false
           (Some "intr.yml") (Some "extr.yml") None None) /\
  events (main ready_world
            ["--algorithm=sgbm"; "--max-disparity=64"; "--blocksize=9";
             "-i"; "intr.yml"; "-e"; "extr.yml"]) =
    [EvCameraStart LeftCamera; EvCameraStart RightCamera;
     EvFileOpen "intr.yml" true; EvFileOpen "extr.yml" true].
Proof. split; reflexivity. Qed.

(** [%d] reads the digits that start the value and leaves the rest. *)
Example sscanf_d_samples :
  sscanf_d "64" = Some 64 /\ sscanf_d "16abc" = Some 16 /\
  sscanf_d " -16" = Some (-16) /\ sscanf_d "abc" = None /\
  sscanf_d "" = None.
Proof. repeat split; reflexivity. Qed.

(** ** The flag [--max-disparity=] *)

(** C1, as stated, fails: alone on the command line, a flag whose value
    17 is not divisible by 16 gets the usage text and the exit code 0,
    since [argc < 3].  And behind [-o] the same argument is read as the
    name of the disparity file: the run goes on to the cameras. *)
Lemma max_disparity_17_alone_returns_0 :
  sscanf_d "17" = Some 17 /\ Z.rem 17 16 <> 0 /\
  In (maxdisp_opt ++ "17") [maxdisp_opt ++ "17"] /\
  main bare_world [maxdisp_opt ++ "17"] = usage_shown /\
  ending_of (main bare_world [maxdisp_opt ++ "17"]) <> Some (Return (-1)) /\
  main bare_world ["-o"; maxdisp_opt ++ "17"] =
    ([EvCameraStart LeftCamera; EvCameraStart RightCamera],
     inr (FrameLoop
            (matcher_setup
               (set_disparity_filename (Some (maxdisp_opt ++ "17"))
                  initial_options) 640))).
Proof.
  repeat split; try reflexivity; try (now left); vm_compute; discriminate.
Qed.

(** C1, amended: on a command line of two arguments or more, when the
    loop comes to a flag [--max-disparity=<v>]: if [sscanf] reads an
    integer [d] from [v] with [d > 0] and [d % 16 == 0], the loop goes on
    with [numberOfDisparities = d] and the other variables as they were;
    for any other [v], [main] prints the error message and the usage text
    and returns -1. *)
Theorem max_disparity_flag_checked (w : world) args v rest o :
  (2 <= List.length args)%nat ->
  loop_at args initial_options ((maxdisp_opt ++ v) :: rest) o ->
  (forall d, sscanf_d v = Some d -> 0 < d -> Z.rem d 16 = 0 ->
     loop_at args initial_options rest (set_numberOfDisparities d o) /\
     numberOfDisparities (set_numberOfDisparities d o) = d) /\
  (~ (exists d, sscanf_d v = Some d /\ 0 < d /\ Z.rem d 16 = 0) ->
     main w args = max_disparity_error).
Proof.
  intros Hlen Hat. split.
  - intros d Hd Hpos Hrem. split; [| reflexivity].
    eapply loop_next; [exact Hat |].
    rewrite classify_maxdisp, Hd.
    replace (d <? 1) with false by (symmetry; apply Z.ltb_ge; lia).
    rewrite Hrem. reflexivity.
  - intros Hno.
    assert (Hc : classify (maxdisp_opt ++ v) o =
                 Stop (printf msg_max_disparity ;; print_help) (-1)).
    { rewrite classify_maxdisp. destruct (sscanf_d v) as [d |]; [| reflexivity].
      destruct (d <? 1) eqn:E1; [reflexivity |].
      destruct (Z.rem d 16 =? 0) eqn:E2; [| reflexivity].
      exfalso. apply Hno. exists d. apply Z.ltb_ge in E1. apply Z.eqb_eq in E2.
      repeat split; [lia | assumption]. }
    rewrite (main_stops_at w args _ _ _ _ _ Hlen Hat Hc). reflexivity.
Qed.

Lemma max_disparity_flag_checked_witness :
  loop_at [nodisplay_opt; maxdisp_opt ++ "64"] initial_options []
    (set_numberOfDisparities 64 (set_no_display true initial_options)).
Proof.
  assert (Hlen : (2 <= List.length [nodisplay_opt; maxdisp_opt ++ "64"])%nat)
    by (simpl; lia).
  assert (Hat : loop_at [nodisplay_opt; maxdisp_opt ++ "64"] initial_options
                  [maxdisp_opt ++ "64"] (set_no_display true initial_options))
    by (eapply loop_next; [apply loop_start | reflexivity]).
  destruct (max_disparity_flag_checked bare_world _ "64" [] _ Hlen Hat)
    as [Hyes _].
  apply (Hyes 64); [reflexivity | lia | reflexivity].
Defined.

(** ** The flag [--blocksize=] *)

(** C2, as stated, fails: alone on the command line, a flag whose value 4
    is even gets the usage text and the exit code 0, since [argc < 3].
    And behind [-o] the same argument is read as the name of the
    disparity file: the run goes on to the cameras. *)
Lemma blocksize_4_alone_returns_0 :
  sscanf_d "4" = Some 4 /\ Z.rem 4 2 <> 1 /\
  In (blocksize_opt ++ "4") [blocksize_opt ++ "4"] /\
  main bare_world [blocksize_opt ++ "4"] = usage_shown /\
  ending_of (main bare_world [blocksize_opt ++ "4"]) <> Some (Return (-1)) /\
  main bare_world ["-o"; blocksize_opt ++ "4"] =
    ([EvCameraStart LeftCamera; EvCameraStart RightCamera],
     inr (FrameLoop
            (matcher_setup
               (set_disparity_filename (Some (blocksize_opt ++ "4"))
                  initial_options) 640))).
Proof.
  repeat split; try reflexivity; try (now left); vm_compute; discriminate.
Qed.

(** C2, amended: on a command line of two arguments or more, when the
    loop comes to a flag [--blocksize=<v>]: if [sscanf] reads an integer
    [b] from [v] with [b > 0] and [b % 2 == 1], the loop goes on with
    [SADWindowSize = b] and the other variables as they were; for any
    other [v], [main] prints the error message and returns -1. *)
Theorem blocksize_flag_checked (w : world) args v rest o :
  (2 <= List.length args)%nat ->
  loop_at args initial_options ((blocksize_opt ++ v) :: rest) o ->
  (forall b, sscanf_d v = Some b -> 0 < b -> Z.rem b 2 = 1 ->
     loop_at args initial_options rest (set_SADWindowSize b o) /\
     SADWindowSize (set_SADWindowSize b o) = b) /\
  (~ (exists b, sscanf_d v = Some b /\ 0 < b /\ Z.rem b 2 = 1) ->
     main w args = block_size_error).
Proof.
  intros Hlen Hat. split.
  - intros b Hb Hpos Hrem. split; [| reflexivity].
    eapply loop_next; [exact Hat |].
    rewrite classify_blocksize, Hb.
    replace (b <? 1) with false by (symmetry; apply Z.ltb_ge; lia).
    rewrite Hrem. reflexivity.
  - intros Hno.
    assert (Hc : classify (blocksize_opt ++ v) o =
                 Stop (printf msg_block_size) (-1)).
    { rewrite classify_blocksize. destruct (sscanf_d v) as [b |]; [| reflexivity].
      destruct (b <? 1) eqn:E1; [reflexivity |].
      destruct (Z.rem b 2 =? 1) eqn:E2; [| reflexivity].
      exfalso. apply Hno. exists b. apply Z.ltb_ge in E1. apply Z.eqb_eq in E2.
      repeat split; [lia | assumption]. }
    rewrite (main_stops_at w args _ _ _ _ _ Hlen Hat Hc). reflexivity.
Qed.

Lemma blocksize_flag_checked_witness :
  main bare_world [nodisplay_opt; blocksize_opt ++ "8"] = block_size_error.
Proof.
  assert (Hlen : (2 <= List.length [nodisplay_opt; blocksize_opt ++ "8"])%nat)
    by (simpl; lia).
  assert (Hat : loop_at [nodisplay_opt; blocksize_opt ++ "8"] initial_options
                  [blocksize_opt ++ "8"] (set_no_display true initial_options))
    by (eapply loop_next; [apply loop_start | reflexivity]).
  destruct (blocksize_flag_checked bare_world _ "8" [] _ Hlen Hat)
    as [_ Hno].
  apply Hno. intros (b & Hb & _ & Hrem).
  vm_compute in Hb. inversion Hb; subst b. vm_compute in Hrem. discriminate.
Defined.

(** ** The scenario of a lone [--max-disparity=50] *)

(** C5, as stated, fails: with this single argument [argc] is 2, and
    [main] prints the usage text and returns 0. *)
Lemma max_disparity_50_alone_returns_0 :
  main bare_world ["--max-disparity=50"] = usage_shown /\
  ending_of (main bare_world ["--max-disparity=50"]) <> Some (Return (-1)) /\
  ~ In (EvPrintf msg_max_disparity)
       (events (main bare_world ["--max-disparity=50"])).
Proof.
  split; [reflexivity |]. split.
  - vm_compute. discriminate.
  - vm_compute. intros [H | [H | []]]; discriminate.
Qed.

(** C5, amended: run with the single argument "--max-disparity=50", the
    program prints the usage text and returns 0; run with that argument
    followed by at least one more, it prints the error message of the
    flag (50 is not divisible by 16) and returns -1. *)
Theorem max_disparity_50_scenario (w : world) :
  main w ["--max-disparity=50"] = usage_shown /\
  forall a rest,
    main w ("--max-disparity=50" :: a :: rest) = max_disparity_error.
Proof.
  split.
  - apply main_short. simpl. lia.
  - intros a rest.
    rewrite (main_stops_at w _ "--max-disparity=50" (a :: rest)
               initial_options (printf msg_max_disparity ;; print_help) (-1)).
    + reflexivity.
    + simpl. lia.
    + apply loop_start.
    + reflexivity.
Qed.

(** ** The file names after the loop *)

Lemma classify_next_filenames a o o' :
  classify a o = Next o' ->
  intrinsic_filename o' = intrinsic_filename o /\
  extrinsic_filename o' = extrinsic_filename o /\
  disparity_filename o' = disparity_filename o /\
  point_cloud_filename o' = point_cloud_filename o.
Proof.
  unfold classify.
  repeat match goal with
         | |- context [if ?b then _ else _] => destruct b
         | |- context [match ?x with Some _ => _ | None => _ end] => destruct x
         end;
    intros H; inversion H; subst; simpl; auto.
Qed.

Lemma classify_take a o k :
  classify a o = Take k ->
  In a value_flags /\ k = (fun v => set_filename a v o).
Proof.
  unfold classify, value_flags, strcmp_eq.
  repeat match goal with
         | |- context [if String.eqb ?x ?y then _ else _] =>
             destruct (String.eqb_spec x y)
         | |- context [if ?b then _ else _] => destruct b
         | |- context [match ?x with Some _ => _ | None => _ end] => destruct x
         end;
    intros H; inversion H; subst; simpl; auto 6.
Qed.

Lemma set_filename_none flag o :
  In flag value_flags ->
  filename_of flag (set_filename flag None o) = None /\
  (filename_of flag o = None -> set_filename flag None o = o).
Proof.
  unfold value_flags. simpl.
  intros [<- | [<- | [<- | [<- | []]]]]; (split; [reflexivity |]);
    destruct o; intros H; vm_compute in H; subst; reflexivity.
Qed.

(** A file name that is set after the loop took two arguments at least. *)
Lemma given_needs_two args o :
  parse_loop args initial_options = ret o ->
  (is_given (intrinsic_filename o) || is_given (extrinsic_filename o)
   || is_given (disparity_filename o) || is_given (point_cloud_filename o))
  = true ->
  (2 <= List.length args)%nat.
Proof.
  destruct args as [| a [| b rest]]; simpl; try lia.
  - intros H. inversion H; subst. discriminate.
  - destruct (classify a initial_options) as [output code | o' | k] eqn:Hc.
    + apply classify_stop in Hc as (_ & t & -> & _ & _). discriminate.
    + apply classify_next_filenames in Hc as (Hi & He & Hd & Hp).
      intros H. inversion H; subst. rewrite Hi, He, Hd, Hp. discriminate.
    + apply classify_take in Hc as (Hin & ->).
      intros H. inversion H; subst. revert Hin. unfold value_flags. simpl.
      intros [<- | [<- | [<- | [<- | []]]]]; discriminate.
Qed.

(** ** The check of the calibration pair *)

(** The check on the variables: when the loop over the arguments ends
    without an error and exactly one of the two calibration file names is
    set, [main] prints the error message and returns -1; when both or
    neither are set the check lets the run through to the next check. *)
Lemma pair_check_on_variables (w : world) args o :
  parse_loop args initial_options = ret o ->
  (xorb (is_given (intrinsic_filename o)) (is_given (extrinsic_filename o))
   = true ->
   main w args = calibration_pair_error) /\
  (xorb (is_given (intrinsic_filename o)) (is_given (extrinsic_filename o))
   = false ->
   check_calibration_pair o = ret tt /\
   ((2 <= List.length args)%nat ->
    main w args = (check_point_cloud o ;; run_demo w o))).
Proof.
  intros Hp. split; intros Hx.
  - rewrite main_parses.
    + rewrite Hp, bind_ret. unfold after_parsing, check_calibration_pair.
      rewrite Hx. reflexivity.
    + apply (given_needs_two args o Hp).
      destruct (intrinsic_filename o), (extrinsic_filename o);
        simpl in *; try discriminate; reflexivity.
  - assert (Hc : check_calibration_pair o = ret tt)
      by (unfold check_calibration_pair; now rewrite Hx).
    split; [exact Hc |].
    intros Hlen. rewrite main_parses by assumption.
    rewrite Hp, bind_ret. unfold after_parsing. now rewrite Hc, bind_ret.
Qed.

(** ** The check of the point-cloud flag *)

(** The check on the variables: when the loop over the arguments ends
    without an error with the point-cloud file name set and the two
    calibration file names not both set, [main] prints one error message
    and returns -1, before any camera is started. *)
Lemma point_cloud_check_on_variables (w : world) args o :
  parse_loop args initial_options = ret o ->
  is_given (point_cloud_filename o) = true ->
  is_given (intrinsic_filename o) && is_given (extrinsic_filename o) = false ->
  main w args =
    (if xorb (is_given (intrinsic_filename o))
             (is_given (extrinsic_filename o))
     then calibration_pair_error else point_cloud_error) /\
  ending_of (main w args) = Some (Return (-1)) /\
  only_prints (events (main w args)) /\ events (main w args) <> [].
Proof.
  intros Hp Hpc Hboth.
  assert (Hm : main w args =
    (if xorb (is_given (intrinsic_filename o))
             (is_given (extrinsic_filename o))
     then calibration_pair_error else point_cloud_error)).
  { rewrite main_parses.
    - rewrite Hp, bind_ret.
      unfold after_parsing, check_calibration_pair, check_point_cloud.
      destruct (intrinsic_filename o), (extrinsic_filename o);
        simpl in *; try discriminate; try reflexivity.
      rewrite Hpc. reflexivity.
    - apply (given_needs_two args o Hp). rewrite Hpc.
      now rewrite !orb_true_r. }
  rewrite Hm.
  destruct (xorb _ _); repeat split; try discriminate;
    repeat constructor; eexists; reflexivity.
Qed.

(** ** The flag [--scale=] *)

(** The loop has no branch for [scale_opt]: wherever it meets the flag,
    it takes the last branch of the chain. *)
Lemma scale_flag_stops_main (w : world) args f rest o :
  (2 <= List.length args)%nat ->
  loop_at args initial_options ((scale_opt ++ f) :: rest) o ->
  main w args = unknown_option_error (scale_opt ++ f).
Proof.
  intros Hlen Hat.
  rewrite (main_stops_at w args _ _ _ _ _ Hlen Hat (classify_scale f o)).
  reflexivity.
Qed.

(** C6: the usage text lists [--scale=], and [main] declares [scale_opt],
    but the flag is an unknown option for the loop: with it [main] prints
    a parameter error and returns -1, where the same command line without
    it goes on to start the cameras and enter the loop over the frames. *)
Theorem scale_flag_is_unknown_option :
  main ready_world [nodisplay_opt; nodisplay_opt; "--scale=2"] =
    unknown_option_error "--scale=2" /\
  main ready_world [nodisplay_opt; nodisplay_opt] =
    ([EvCameraStart LeftCamera; EvCameraStart RightCamera],
     inr (FrameLoop
            (matcher_setup (set_no_display true initial_options) 640))) /\
  forall (w : world) f a rest,
    main w ((scale_opt ++ f) :: a :: rest) =
    unknown_option_error (scale_opt ++ f).
Proof.
  split; [reflexivity |]. split; [reflexivity |].
  intros w f a rest.
  apply (scale_flag_stops_main w _ f (a :: rest) initial_options).
  - simpl. lia.
  - apply loop_start.
Qed.

(** ** Calibration files that cannot be opened *)

Lemma run_demo_failed_open (w : world) o f :
  In (EvFileOpen f false) (events (run_demo w o)) ->
  exists pre,
    run_demo w o =
      ((pre ++ [EvFileOpen f false; EvPrintf (msg_failed_open f)])%list,
       inr (Return (-1))) /\
    In (EvCameraStart LeftCamera) pre /\
    In (EvCameraStart RightCamera) pre.
Proof.
  unfold run_demo, start_camera, load_calibration, open_storage, events.
  destruct (camera_starts w LeftCamera), (camera_starts w RightCamera);
    try (simpl; intros H; decompose [or] H; discriminate || contradiction).
  destruct (intrinsic_filename o) as [fi |];
    try (simpl; intros H; decompose [or] H; discriminate || contradiction).
  destruct (file_opens w fi) eqn:Ei.
  - destruct (extrinsic_filename o) as [fe |].
    + destruct (file_opens w fe) eqn:Ee; simpl;
        intros H; decompose [or] H; try discriminate; try contradiction.
      match goal with E : EvFileOpen _ _ = EvFileOpen _ _ |- _ =>
        inversion E; subst end.
      exists [EvCameraStart LeftCamera; EvCameraStart RightCamera;
              EvFileOpen fi true].
      simpl. auto.
    + simpl;
        intros H; decompose [or] H; try discriminate; contradiction.
  - simpl;
      intros H; decompose [or] H; try discriminate; try contradiction.
    match goal with E : EvFileOpen _ _ = EvFileOpen _ _ |- _ =>
      inversion E; subst end.
    exists [EvCameraStart LeftCamera; EvCameraStart RightCamera].
    simpl. auto.
Qed.

Lemma only_prints_no_open t f b :
  only_prints t -> ~ In (EvFileOpen f b) t.
Proof.
  intros Hp Hin. unfold only_prints in Hp. rewrite Forall_forall in Hp.
  destruct (Hp _ Hin) as [s Hs]. discriminate.
Qed.

(** C7, as stated, fails: when the intrinsics file cannot be opened, the
    two cameras have been started before the attempt to open it. *)
Lemma failed_open_follows_camera_start :
  main bare_world ["-i"; "a"; "-e"; "b"] =
    ([EvCameraStart LeftCamera; EvCameraStart RightCamera;
      EvFileOpen "a" false; EvPrintf (msg_failed_open "a")],
     inr (Return (-1))) /\
  exists pre post,
    events (main bare_world ["-i"; "a"; "-e"; "b"]) =
      (pre ++ EvFileOpen "a" false :: post)%list /\
    camera_started pre.
Proof.
  split; [reflexivity |].
  exists [EvCameraStart LeftCamera; EvCameraStart RightCamera],
         [EvPrintf (msg_failed_open "a")].
  split; [reflexivity |].
  exists LeftCamera. now left.
Qed.

(** C7, amended: in every run in which a calibration file cannot be
    opened, the program prints the failure right after the attempt and
    returns -1 at once, so that no camera is started after the failure;
    both cameras have been started before the attempt. *)
Theorem failed_open_ends_run (w : world) args f :
  In (EvFileOpen f false) (events (main w args)) ->
  exists pre,
    main w args =
      ((pre ++ [EvFileOpen f false; EvPrintf (msg_failed_open f)])%list,
       inr (Return (-1))) /\
    In (EvCameraStart LeftCamera) pre /\
    In (EvCameraStart RightCamera) pre.
Proof.
  destruct (Nat.lt_ge_cases (List.length args) 2) as [Hs | Hl].
  - rewrite (main_short w args Hs). simpl.
    intros H; decompose [or] H; discriminate || contradiction.
  - rewrite (main_parses w args Hl).
    destruct (parse_loop_cases args initial_options)
      as [[o ->] | (t & -> & Hp & _)].
    + rewrite bind_ret. unfold after_parsing, check_calibration_pair,
        check_point_cloud.
      destruct (xorb _ _).
      { simpl. intros H; decompose [or] H; discriminate || contradiction. }
      rewrite bind_ret.
      destruct (_ && _).
      { simpl. intros H; decompose [or] H; discriminate || contradiction. }
      rewrite bind_ret. apply run_demo_failed_open.
    + rewrite bind_stop. simpl. intros H.
      exfalso. exact (only_prints_no_open _ _ _ Hp H).
Qed.

Lemma failed_open_ends_run_witness :
  exists pre,
    main bare_world ["-i"; "a"; "-e"; "b"] =
      ((pre ++ [EvFileOpen "a" false; EvPrintf (msg_failed_open "a")])%list,
       inr (Return (-1))) /\
    In (EvCameraStart LeftCamera) pre /\
    In (EvCameraStart RightCamera) pre.
Proof.
  apply (failed_open_ends_run bare_world ["-i"; "a"; "-e"; "b"] "a").
  simpl. right. right. left. reflexivity.
Defined.

(** ** A value-taking flag as the last argument *)

(** C9, as stated, fails: a trailing [-i] does not behave as if it had
    not been given when an earlier [-i] has set the file name.  It clears
    the name, and here the run ends at the check of the calibration pair,
    where the command line without it enters the loop over the frames.
    Nor does it after a single argument: with it the arguments are read
    and the cameras started, without it [argc < 3] and the usage text is
    all there is. *)
Lemma trailing_flag_clears_earlier_value :
  main ready_world ["-i"; "a"; "-e"; "b"; "-i"] = calibration_pair_error /\
  main ready_world ["-i"; "a"; "-e"; "b"] =
    ([EvCameraStart LeftCamera; EvCameraStart RightCamera;
      EvFileOpen "a" true; EvFileOpen "b" true],
     inr (FrameLoop
            (matcher_setup
               (set_extrinsic_filename (Some "b")
                  (set_intrinsic_filename (Some "a") initial_options))
               640))) /\
  main ready_world (["-i"; "a"; "-e"; "b"] ++ ["-i"]) <>
  main ready_world ["-i"; "a"; "-e"; "b"] /\
  main ready_world [nodisplay_opt] = usage_shown /\
  main ready_world ([nodisplay_opt] ++ ["-i"]) <>
  main ready_world [nodisplay_opt].
Proof.
  split; [reflexivity |]. split; [reflexivity |].
  split; [vm_compute; discriminate |].
  split; [reflexivity |].
  vm_compute. discriminate.
Qed.

(** C9, amended: when one of [-i], [-e], [-o], [-p] is the last argument
    and the loop comes to it as a flag, the loop reads [argv[argc]], the
    null pointer, as its value: it ends without a parameter error, with
    that flag's file name null (also when an earlier occurrence had set
    it) and the other variables as the arguments before it left them.
    When the name was not set before and two arguments at least precede
    the flag, the program runs exactly as without the trailing flag. *)
Theorem trailing_value_flag (w : world) pre flag o :
  In flag value_flags ->
  loop_at (pre ++ [flag])%list initial_options [flag] o ->
  parse_loop (pre ++ [flag])%list initial_options =
    ret (set_filename flag None o) /\
  filename_of flag (set_filename flag None o) = None /\
  parse_loop pre initial_options = ret o /\
  (filename_of flag o = None -> (2 <= List.length pre)%nat ->
   main w (pre ++ [flag])%list = main w pre).
Proof.
  intros Hflag Hat.
  assert (Hwith : parse_loop (pre ++ [flag])%list initial_options =
                  ret (set_filename flag None o)).
  { rewrite (parse_loop_at _ _ _ _ Hat). simpl.
    now rewrite (classify_value_flag flag o Hflag). }
  assert (Hwithout : parse_loop pre initial_options = ret o).
  { destruct (loop_at_prefix _ _ _ _ Hat) as (pre' & Heq & Hm).
    apply app_inv_tail in Heq. subst pre'.
    specialize (Hm []). rewrite app_nil_r in Hm.
    now rewrite (parse_loop_at _ _ _ _ Hm). }
  destruct (set_filename_none flag o Hflag) as [Hnone Hsame].
  repeat split; try assumption.
  intros Hunset Hlen.
  rewrite !main_parses; [| assumption | rewrite length_app; simpl; lia].
  now rewrite Hwith, Hwithout, (Hsame Hunset).
Qed.

Lemma trailing_value_flag_witness :
  parse_loop ([nodisplay_opt; nodisplay_opt] ++ ["-i"])%list initial_options =
    ret (set_filename "-i" None (set_no_display true initial_options)) /\
  main bare_world ([nodisplay_opt; nodisplay_opt] ++ ["-i"])%list =
  main bare_world [nodisplay_opt; nodisplay_opt].
Proof.
  assert (Hflag : In "-i" value_flags) by (simpl; auto).
  assert (Hat : loop_at ([nodisplay_opt; nodisplay_opt] ++ ["-i"])%list
                  initial_options ["-i"]
                  (set_no_display true initial_options)).
  { eapply loop_next.
    - eapply loop_next; [apply loop_start | reflexivity].
    - reflexivity. }
  destruct (trailing_value_flag bare_world _ "-i" _ Hflag Hat)
    as (Hwith & _ & _ & Hsame).
  split; [exact Hwith |].
  apply Hsame; [reflexivity | simpl; lia].
Defined.

(** ** The default number of disparities *)

Lemma wrap_in_int z : CInt.in_int z -> CInt.wrap z = z.
Proof.
  unfold CInt.in_int, CInt.INT_MIN, CInt.INT_MAX, CInt.wrap. intros H.
  rewrite Z.mod_small; lia.
Qed.

Lemma land_minus_16 x : Z.land x (-16) = 16 * (x / 16).
Proof.
  change (-16) with (Z.lnot (Z.ones 4)).
  rewrite <- Z.ldiff_land, Z.ldiff_ones_r by lia.
  rewrite Z.shiftl_mul_pow2, Z.shiftr_div_pow2 by lia.
  change (2 ^ 4) with 16. lia.
Qed.

Lemma default_disparities_eq width :
  0 <= width <= CInt.INT_MAX ->
  default_disparities width = 16 * ((width / 8 + 15) / 16).
Proof.
  intros H. unfold default_disparities.
  rewrite Z.quot_div_nonneg by lia.
  assert (0 <= width / 8 <= width) by
    (split; [apply Z.div_pos; lia | apply Z.div_le_upper_bound; lia]).
  rewrite wrap_in_int.
  - apply land_minus_16.
  - unfold CInt.in_int, CInt.INT_MIN, CInt.INT_MAX in *.
    assert (width / 8 <= 2 ^ 28) by (apply Z.div_le_upper_bound; lia).
    lia.
Qed.

(** C10: when the loop leaves [numberOfDisparities] at 0, the matchers
    get [((width / 8) + 15) & -16]; for every width of 8 or more this is
    positive and divisible by 16, so it passes the test that the flag
    [--max-disparity=] applies to its value. *)
Theorem default_disparities_valid o width :
  numberOfDisparities o = 0 ->
  8 <= width <= CInt.INT_MAX ->
  let d := Z.land (width / 8 + 15) (-16) in
  bm_numberOfDisparities (matcher_setup o width) = d /\
  sgbm_numberOfDisparities (matcher_setup o width) = d /\
  0 < d /\ Z.rem d 16 = 0 /\
  (d <? 1) || negb (Z.rem d 16 =? 0) = false.
Proof.
  intros Hzero Hw d.
  assert (Hd : default_disparities width = d).
  { unfold d. rewrite land_minus_16. apply default_disparities_eq. lia. }
  assert (Hpos : 0 < d).
  { unfold d. rewrite land_minus_16.
    assert (1 <= width / 8) by (apply Z.div_le_lower_bound; lia).
    assert (1 <= (width / 8 + 15) / 16) by (apply Z.div_le_lower_bound; lia).
    lia. }
  assert (Hrem : Z.rem d 16 = 0).
  { unfold d. rewrite land_minus_16. rewrite Z.mul_comm. apply Z.rem_mul. lia. }
  unfold matcher_setup, choose_disparities. simpl. rewrite Hzero. simpl.
  rewrite Hd, Hrem.
  repeat split; try assumption.
  replace (d <? 1) with false by (symmetry; apply Z.ltb_ge; lia).
  reflexivity.
Qed.

Lemma default_disparities_valid_witness :
  bm_numberOfDisparities (matcher_setup initial_options 640) = 80 /\
  0 < Z.land (640 / 8 + 15) (-16).
Proof.
  destruct (default_disparities_valid initial_options 640)
    as (Hbm & _ & Hpos & _).
  - reflexivity.
  - unfold CInt.INT_MAX. lia.
  - split; [exact Hbm | exact Hpos].
Defined.

(** ** [UVCamera]: the size of what [captureColor] gives back *)






(** * Further properties of [main] *)

(** ** How the loop composes *)

(** What the loop does up to a point does not depend on what follows. *)
Lemma loop_at_app args o args' o' rest :
  loop_at args o args' o' ->
  loop_at (args ++ rest)%list o (args' ++ rest)%list o'.
Proof.
  induction 1 as [| a r o1 o2 _ IH Hc | a v r o1 k _ IH Hc].
  - apply loop_start.
  - eapply loop_next; [exact IH | exact Hc].
  - eapply loop_take; [exact IH | exact Hc].
Qed.

(** Once the loop has left [main], more arguments change nothing. *)
Lemma parse_loop_error_app args : forall o t h rest,
  parse_loop args o = (t, inr h) ->
  parse_loop (args ++ rest)%list o = (t, inr h).
Proof.
  remember (List.length args) as n eqn:Hn. revert args Hn.
  induction n as [n IH] using lt_wf_ind. intros args -> o t h rest.
  destruct args as [| a r]; simpl.
  - discriminate.
  - destruct (classify a o) as [output code | o' | k].
    + trivial.
    + apply (IH (List.length r)); [simpl; lia | reflexivity].
    + destruct r as [| v r']; simpl.
      * discriminate.
      * apply (IH (List.length r')); [simpl; lia | reflexivity].
Qed.

(** X1: the arguments are read from left to right, and what is read does
    not depend on what follows.  When the loop reads [pre] to its end, a
    command line [pre ++ rest] is read as [rest] from the values that
    [pre] has set; when the loop leaves [main] within [pre], it does so in
    the same way, with the same output, whatever follows. *)
Theorem parse_loop_app pre rest o :
  (forall o1, loop_at pre o [] o1 ->
     parse_loop (pre ++ rest)%list o = parse_loop rest o1) /\
  (forall t h, parse_loop pre o = (t, inr h) ->
     parse_loop (pre ++ rest)%list o = (t, inr h)).
Proof.
  split.
  - intros o1 Hat.
    apply (parse_loop_at _ _ _ _ (loop_at_app _ _ _ _ rest Hat)).
  - intros t h. apply parse_loop_error_app.
Qed.

Lemma parse_loop_app_witness :
  parse_loop (["--blocksize=7"; "-i"; "a"] ++ ["-e"; "b"])%list
    initial_options =
  parse_loop ["-e"; "b"]
    (set_intrinsic_filename (Some "a")
       (set_SADWindowSize 7 initial_options)).
Proof.
  apply (parse_loop_app ["--blocksize=7"; "-i"; "a"] ["-e"; "b"]
           initial_options).
  apply (loop_take _ _ "-i" "a" [] (set_SADWindowSize 7 initial_options)
           (fun v => set_intrinsic_filename v
                       (set_SADWindowSize 7 initial_options))).
  - eapply loop_next; [apply loop_start | reflexivity].
  - reflexivity.
Defined.

(** ** The flag [--algorithm=] *)

Lemma classify_algorithm v o :
  classify (algorithm_opt ++ v) o =
  if strcmp_eq v "bm" then Next (set_alg STEREO_BM o)
  else if strcmp_eq v "sgbm" then Next (set_alg STEREO_SGBM o)
  else if strcmp_eq v "hh" then Next (set_alg STEREO_HH o)
  else if strcmp_eq v "var" then Next (set_alg STEREO_VAR o)
  else Stop (printf msg_unknown_algorithm ;; print_help) (-1).
Proof.
  unfold classify, strncmp_eq, algorithm_opt. simpl.
  replace (String.prefix "" v) with true by (destruct v; reflexivity).
  cbv zeta.
  repeat match goal with
         | |- context [strcmp_eq v ?n] => destruct (strcmp_eq v n)
         end; reflexivity.
Qed.

(** X2: on a command line of two arguments or more, when the loop comes
    to a flag [--algorithm=<v>]: if [v] is exactly one of [bm], [sgbm],
    [hh], [var], the loop goes on with [alg] set to the value that
    stands for it; for any other [v] (the empty name, another case,
    something after the name) [main] prints the error message and the
    usage text and returns -1. *)
Theorem algorithm_flag_checked (w : world) args v rest o :
  (2 <= List.length args)%nat ->
  loop_at args initial_options ((algorithm_opt ++ v) :: rest) o ->
  (forall code, In (v, code) algorithm_names ->
     loop_at args initial_options rest (set_alg code o)) /\
  (~ In v (map fst algorithm_names) ->
     main w args = unknown_algorithm_error).
Proof.
  intros Hlen Hat. split.
  - intros code Hin. eapply loop_next; [exact Hat |].
    rewrite classify_algorithm.
    unfold algorithm_names in Hin. simpl in Hin.
    destruct Hin as [H | [H | [H | [H | []]]]];
      inversion H; subst; reflexivity.
  - intros Hno.
    assert (Hc : classify (algorithm_opt ++ v) o =
                 Stop (printf msg_unknown_algorithm ;; print_help) (-1)).
    { rewrite classify_algorithm. unfold strcmp_eq.
      repeat match goal with
             | |- context [String.eqb v ?n] =>
                 destruct (String.eqb_spec v n) as [-> | _];
                 [exfalso; apply Hno; simpl; tauto |]
             end.
      reflexivity. }
    rewrite (main_stops_at w args _ _ _ _ _ Hlen Hat Hc). reflexivity.
Qed.

Lemma algorithm_flag_checked_witness :
  loop_at [nodisplay_opt; "--algorithm=hh"] initial_options []
    (set_alg STEREO_HH (set_no_display true initial_options)) /\
  main bare_world [nodisplay_opt; "--algorithm=BM"] = unknown_algorithm_error.
Proof.
  split.
  - refine (proj1 (algorithm_flag_checked bare_world
                     [nodisplay_opt; "--algorithm=hh"] "hh" []
                     (set_no_display true initial_options) _ _)
                  STEREO_HH _).
    + simpl. lia.
    + eapply loop_next; [apply loop_start | reflexivity].
    + simpl. auto.
  - refine (proj2 (algorithm_flag_checked bare_world
                     [nodisplay_opt; "--algorithm=BM"] "BM" []
                     (set_no_display true initial_options) _ _) _).
    + simpl. lia.
    + eapply loop_next; [apply loop_start | reflexivity].
    + simpl. intros [H | [H | [H | [H | []]]]]; discriminate.
Defined.

(** ** Arguments that are no flags *)

Lemma prefix_head_ne c1 s1 c2 s2 :
  c1 <> c2 -> String.prefix (String c1 s1) (String c2 s2) = false.
Proof.
  intros Hne. cbn [String.prefix].
  destruct (ascii_dec c1 c2); [contradiction | reflexivity].
Qed.

Lemma eqb_head_ne c1 s1 c2 s2 :
  c1 <> c2 -> String.eqb (String c1 s1) (String c2 s2) = false.
Proof.
  intros Hne. cbn [String.eqb].
  apply Ascii.eqb_neq in Hne. now rewrite Hne.
Qed.

Lemma classify_no_dash a o :
  starts_with_dash a = false ->
  classify a o = Stop (printf (msg_unknown_option a)) (-1).
Proof.
  unfold starts_with_dash. destruct a as [| c a']; [reflexivity |].
  intros Hp.
  assert (Hne : "-"%char <> c).
  { intros <-. cbn [String.prefix] in Hp.
    destruct (ascii_dec "-" "-"); [| congruence].
    destruct a'; discriminate. }
  assert (Hne' : c <> "-"%char) by congruence.
  unfold classify, strncmp_eq, strcmp_eq, algorithm_opt, maxdisp_opt,
    blocksize_opt, nodisplay_opt.
  rewrite !prefix_head_ne by assumption.
  rewrite !eqb_head_ne by assumption.
  reflexivity.
Qed.

(** X3: every flag begins with a dash.  On a command line of two
    arguments or more, an argument that the loop comes to and that does
    not begin with a dash (an image name, the empty string) ends [main]
    with the unknown-option message that names it and the code -1: so
    does every command line of the form the usage text gives, which
    begins with two image names. *)
Theorem positional_argument_refused (w : world) args a rest o :
  (2 <= List.length args)%nat ->
  loop_at args initial_options (a :: rest) o ->
  starts_with_dash a = false ->
  main w args = unknown_option_error a.
Proof.
  intros Hlen Hat Hdash.
  rewrite (main_stops_at w args _ _ _ _ _ Hlen Hat (classify_no_dash a o Hdash)).
  reflexivity.
Qed.

Lemma positional_argument_refused_witness :
  main ready_world ["left.png"; "right.png"; "--algorithm=bm"] =
  unknown_option_error "left.png".
Proof.
  apply (positional_argument_refused ready_world _ "left.png"
           ["right.png"; "--algorithm=bm"] initial_options).
  - simpl. lia.
  - apply loop_start.
  - reflexivity.
Defined.

(** ** What the loop lets through *)

Lemma wrap_range z : CInt.in_int (CInt.wrap z).
Proof.
  unfold CInt.in_int, CInt.wrap, CInt.INT_MIN, CInt.INT_MAX.
  pose proof (Z.mod_pos_bound (z + 2 ^ 31) (2 ^ 32) ltac:(lia)). lia.
Qed.

Lemma sscanf_d_range s d : sscanf_d s = Some d -> CInt.in_int d.
Proof.
  unfold sscanf_d. destruct (scan_decimal s); simpl; [| discriminate].
  intros H. inversion H. apply wrap_range.
Qed.

Lemma classify_next_valid a o o' :
  valid_options o -> classify a o = Next o' -> valid_options o'.
Proof.
  intros (Ha & Hn & Hs). unfold classify.
  destruct (strncmp_eq a algorithm_opt).
  { cbv zeta.
    repeat match goal with
           | |- context [if strcmp_eq ?x ?y then _ else _] =>
               destruct (strcmp_eq x y)
           end;
      simpl; intros H; inversion H; subst;
      (split; [simpl; tauto | split; assumption]). }
  destruct (strncmp_eq a maxdisp_opt).
  { destruct (sscanf_d _) as [d |] eqn:Hd; [| discriminate].
    apply sscanf_d_range in Hd. destruct Hd as [_ Hmax].
    destruct (d <? 1) eqn:E1; [discriminate |].
    destruct (Z.rem d 16 =? 0) eqn:E2; [| discriminate].
    simpl. intros H. inversion H; subst.
    apply Z.ltb_ge in E1. apply Z.eqb_eq in E2.
    split; [exact Ha | split; [| exact Hs]].
    right. simpl. repeat split; [lia | exact Hmax | exact E2]. }
  destruct (strncmp_eq a blocksize_opt).
  { destruct (sscanf_d _) as [b |] eqn:Hb; [| discriminate].
    apply sscanf_d_range in Hb. destruct Hb as [_ Hmax].
    destruct (b <? 1) eqn:E1; [discriminate |].
    destruct (Z.rem b 2 =? 1) eqn:E2; [| discriminate].
    simpl. intros H. inversion H; subst.
    apply Z.ltb_ge in E1. apply Z.eqb_eq in E2.
    split; [exact Ha | split; [exact Hn |]].
    right. simpl. repeat split; [lia | exact Hmax | exact E2]. }
  repeat match goal with
         | |- context [if strcmp_eq ?x ?y then _ else _] =>
             destruct (strcmp_eq x y)
         end;
    intros H; inversion H; subst; repeat split; assumption.
Qed.

Lemma set_filename_valid flag v o :
  In flag value_flags -> valid_options o ->
  valid_options (set_filename flag v o).
Proof.
  unfold value_flags. simpl.
  intros [<- | [<- | [<- | [<- | []]]]] H; exact H.
Qed.

Lemma parse_loop_valid args : forall o o',
  valid_options o -> parse_loop args o = ret o' -> valid_options o'.
Proof.
  remember (List.length args) as n eqn:Hn. revert args Hn.
  induction n as [n IH] using lt_wf_ind. intros args -> o o' Hv.
  destruct args as [| a r]; simpl.
  - intros H. inversion H; subst. exact Hv.
  - destruct (classify a o) as [output code | o1 | k] eqn:Hc.
    + apply classify_stop in Hc as (_ & t & -> & _ & _). discriminate.
    + apply (IH (List.length r)); [simpl; lia | reflexivity |].
      exact (classify_next_valid a o o1 Hv Hc).
    + apply classify_take in Hc as (Hin & ->).
      destruct r as [| v r'].
      * intros H. inversion H; subst. now apply set_filename_valid.
      * apply (IH (List.length r')); [simpl; lia | reflexivity |].
        now apply set_filename_valid.
Qed.

Lemma initial_options_valid : valid_options initial_options.
Proof. unfold valid_options. simpl. tauto. Qed.

(** X4: whatever the command line, when the loop ends without an error
    [alg] is one of the four algorithms, [numberOfDisparities] is 0 (no
    flag) or a positive [int] divisible by 16, and [SADWindowSize] is 0
    (no flag) or a positive odd [int]: no flag, however often and in
    whatever order it is given, leaves a value behind that its test would
    have refused. *)
Theorem parsed_options_valid args o :
  parse_loop args initial_options = ret o ->
  In (alg o) [STEREO_BM; STEREO_SGBM; STEREO_HH; STEREO_VAR] /\
  (numberOfDisparities o = 0 \/
   (0 < numberOfDisparities o <= CInt.INT_MAX /\
    Z.rem (numberOfDisparities o) 16 = 0)) /\
  (SADWindowSize o = 0 \/
   (0 < SADWindowSize o <= CInt.INT_MAX /\ Z.rem (SADWindowSize o) 2 = 1)).
Proof.
  intros H.
  exact (parse_loop_valid args initial_options o initial_options_valid H).
Qed.

Lemma parsed_options_valid_witness :
  In (alg (mkOptions STEREO_VAR 5 32 false None None None None))
     [STEREO_BM; STEREO_SGBM; STEREO_HH; STEREO_VAR].
Proof.
  apply (parsed_options_valid
           ["--max-disparity=16"; "--algorithm=var"; "--blocksize=5";
            "--max-disparity=32"]).
  reflexivity.
Defined.

(** ** The ways [main] can take *)

(** [main] shows the usage text, or leaves from the loop, or from one of
    the two checks, or goes on to the cameras. *)
Lemma main_cases (w : world) args :
  ((List.length args < 2)%nat /\ main w args = usage_shown) \/
  ((2 <= List.length args)%nat /\
   exists t, parse_loop args initial_options = (t, inr (Return (-1))) /\
             only_prints t /\ t <> [] /\
             main w args = (t, inr (Return (-1)))) \/
  ((2 <= List.length args)%nat /\
   exists o, parse_loop args initial_options = ret o /\
     ((xorb (is_given (intrinsic_filename o))
            (is_given (extrinsic_filename o)) = true /\
       main w args = calibration_pair_error) \/
      (xorb (is_given (intrinsic_filename o))
            (is_given (extrinsic_filename o)) = false /\
       negb (is_given (extrinsic_filename o)) &&
         is_given (point_cloud_filename o) = true /\
       main w args = point_cloud_error) \/
      (xorb (is_given (intrinsic_filename o))
            (is_given (extrinsic_filename o)) = false /\
       negb (is_given (extrinsic_filename o)) &&
         is_given (point_cloud_filename o) = false /\
       main w args = run_demo w o))).
Proof.
  destruct (Nat.lt_ge_cases (List.length args) 2) as [Hs | Hl].
  - left. split; [exact Hs | now apply main_short].
  - right. rewrite (main_parses w args Hl).
    destruct (parse_loop_cases args initial_options)
      as [[o Ho] | (t & Ht & Hp & Hne)].
    + right. split; [exact Hl |]. exists o. split; [exact Ho |].
      rewrite Ho, bind_ret.
      unfold after_parsing, check_calibration_pair, check_point_cloud.
      destruct (xorb _ _).
      * left. split; reflexivity.
      * right. rewrite bind_ret. destruct (_ && _).
        -- left. repeat split; reflexivity.
        -- right. rewrite bind_ret. repeat split; reflexivity.
    + left. split; [exact Hl |]. exists t. rewrite Ht, bind_stop.
      repeat split; assumption.
Qed.

Ltac run_demo_cases w o :=
  let fi := fresh "fi" in
  let fe := fresh "fe" in
  unfold run_demo, start_camera, load_calibration, open_storage;
  destruct (camera_starts w LeftCamera), (camera_starts w RightCamera);
  destruct (intrinsic_filename o) as [fi |] eqn:?Hi;
  destruct (extrinsic_filename o) as [fe |] eqn:?He;
  try destruct (file_opens w fi) eqn:?Hfi;
  try destruct (file_opens w fe) eqn:?Hfe;
  simpl.

Lemma main_frame_loop (w : world) args p :
  ending_of (main w args) = Some (FrameLoop p) ->
  exists o, (2 <= List.length args)%nat /\
            parse_loop args initial_options = ret o /\
            p = matcher_setup o (color_width w LeftCamera).
Proof.
  destruct (main_cases w args)
    as [[_ ->] | [(_ & t & _ & _ & _ & ->) | (Hl & o & Ho & H)]];
    try discriminate.
  destruct H as [[_ ->] | [(_ & _ & ->) | (_ & _ & ->)]]; try discriminate.
  intros H. exists o. split; [exact Hl |]. split; [exact Ho |].
  revert H. unfold ending_of. run_demo_cases w o;
    intros H; inversion H; reflexivity.
Qed.

(** ** The parameters that the matchers get *)

(** X5: for every width that fits an [int], [((width / 8) + 15) & -16] is
    the least multiple of 16 that is not below [width / 8]; it is 0
    exactly for the widths below 8. *)
Theorem default_disparities_rounds_up width :
  0 <= width <= CInt.INT_MAX ->
  let d := default_disparities width in
  Z.rem d 16 = 0 /\
  width / 8 <= d < width / 8 + 16 /\
  d <= CInt.INT_MAX /\
  (d = 0 <-> width < 8).
Proof.
  intros Hw d. unfold d. rewrite default_disparities_eq by assumption.
  set (q := width / 8).
  assert (Hq : 0 <= q) by (apply Z.div_pos; lia).
  assert (Hq' : q <= 2 ^ 28).
  { apply Z.div_le_upper_bound; unfold CInt.INT_MAX in Hw; lia. }
  pose proof (Z.div_mod (q + 15) 16 ltac:(lia)) as Hdm.
  pose proof (Z.mod_pos_bound (q + 15) 16 ltac:(lia)) as Hm.
  split; [rewrite Z.mul_comm; apply Z.rem_mul; lia |].
  split; [lia |].
  split; [unfold CInt.INT_MAX; lia |].
  split.
  - intros H0.
    assert (q < 1) by lia.
    destruct (Z.lt_ge_cases width 8) as [Hlt | Hge]; [exact Hlt |].
    assert (1 <= q) by (apply Z.div_le_lower_bound; lia). lia.
  - intros Hlt.
    assert (Hq0 : q = 0) by (apply Z.div_small; lia).
    rewrite Hq0. reflexivity.
Qed.

Lemma default_disparities_rounds_up_witness :
  640 / 8 <= default_disparities 640 < 640 / 8 + 16.
Proof.
  apply (default_disparities_rounds_up 640). unfold CInt.INT_MAX. lia.
Defined.

Lemma penalty_in_int c s :
  0 < c -> 0 < s -> c * s * s <= CInt.INT_MAX ->
  CInt.wrap (CInt.wrap (CInt.wrap c * s) * s) = c * s * s.
Proof.
  intros Hc Hs Hm. unfold CInt.INT_MAX in Hm.
  rewrite (wrap_in_int c), (wrap_in_int (c * s)), (wrap_in_int (c * s * s));
    unfold CInt.in_int, CInt.INT_MIN, CInt.INT_MAX; nia.
Qed.

(** X7: for a window of at most 4729, the largest for which the products
    fit an [int], the penalties of the semi-global matcher are
    [P1 = 24 * SADWindowSize^2] and [P2 = 96 * SADWindowSize^2], so that
    [0 < P1 < P2]; for any larger window, which the test of
    [--blocksize=] lets through, [32 * cn * SADWindowSize^2] is above
    [INT_MAX]. *)
Theorem sgbm_penalties o width :
  0 <= SADWindowSize o <= 4729 ->
  let p := matcher_setup o width in
  let s := sgbm_SADWindowSize p in
  sgbm_P1 p = 24 * s * s /\ sgbm_P2 p = 96 * s * s /\
  0 < sgbm_P1 p < sgbm_P2 p /\ sgbm_P2 p <= CInt.INT_MAX /\
  forall s', 4729 < s' -> CInt.INT_MAX < 32 * cn * s' * s'.
Proof.
  intros Hs p s.
  assert (Hrange : 0 < s <= 4729).
  { unfold s, p, matcher_setup. cbn [sgbm_SADWindowSize].
    destruct (SADWindowSize o >? 0) eqn:E; [apply Z.gtb_lt in E |]; lia. }
  assert (H1 : sgbm_P1 p = 24 * s * s).
  { unfold s, p, matcher_setup. cbn [sgbm_P1 sgbm_SADWindowSize].
    apply (penalty_in_int (8 * cn));
      unfold cn, CInt.INT_MAX; fold (sgbm_SADWindowSize p) in *;
      unfold s, p, matcher_setup in Hrange;
      cbn [sgbm_SADWindowSize] in Hrange; nia. }
  assert (H2 : sgbm_P2 p = 96 * s * s).
  { unfold s, p, matcher_setup. cbn [sgbm_P2 sgbm_SADWindowSize].
    apply (penalty_in_int (32 * cn));
      unfold cn, CInt.INT_MAX;
      unfold s, p, matcher_setup in Hrange;
      cbn [sgbm_SADWindowSize] in Hrange; nia. }
  rewrite H1, H2. unfold CInt.INT_MAX, cn.
  repeat split; try nia.
Qed.

Lemma sgbm_penalties_witness :
  sgbm_P1 (matcher_setup (set_SADWindowSize 5 initial_options) 640) =
  24 * 5 * 5.
Proof.
  destruct (sgbm_penalties (set_SADWindowSize 5 initial_options) 640)
    as (H1 & _).
  - simpl. lia.
  - exact H1.
Defined.

(** ** How a run ends *)

Lemma only_prints_last t :
  only_prints t -> t <> [] -> exists t' s, t = (t' ++ [EvPrintf s])%list.
Proof.
  intros Hp Hne. destruct (exists_last Hne) as (t' & e & ->).
  unfold only_prints in Hp. apply Forall_app in Hp as [_ Hp].
  inversion Hp as [| ? ? [s ->] _]. now exists t', s.
Qed.

Lemma only_prints_no_start t c : only_prints t -> ~ In (EvCameraStart c) t.
Proof.
  intros Hp Hin. unfold only_prints in Hp. rewrite Forall_forall in Hp.
  destruct (Hp _ Hin) as [s Hs]. discriminate.
Qed.

(** X8: every run of [main] up to the loop over the frames ends in one
    of four ways: it returns 0, it returns -1, a camera fails to start,
    or the loop over the frames is entered.  No run uses a null pointer
    as a file name: the extrinsics name is handed to [fs.open] without a
    test of its own, but the check of the calibration pair has made sure
    that it is set whenever the intrinsics name is. *)
Theorem run_endings (w : world) args :
  ending_of (main w args) = Some (Return 0) \/
  ending_of (main w args) = Some (Return (-1)) \/
  ending_of (main w args) = Some Uncaught \/
  exists p, ending_of (main w args) = Some (FrameLoop p).
Proof.
  destruct (main_cases w args)
    as [[_ ->] | [(_ & t & _ & _ & _ & ->) | (_ & o & _ & H)]];
    [now left | now right; left |].
  destruct H as [[_ ->] | [(_ & _ & ->) | (Hx & _ & ->)]];
    [now right; left | now right; left |].
  revert Hx. unfold ending_of. run_demo_cases w o; intros Hx;
    try discriminate Hx;
    solve [ now right; left | now right; right; left
          | right; right; right; eexists; reflexivity ].
Qed.

(** X9: [main] returns 0 only for a command line of fewer than two
    arguments, after the usage text and nothing else; with two arguments
    or more the only code it returns before the loop over the frames is
    -1, and then the last thing the run did was to print a message. *)
Theorem return_codes (w : world) args c :
  ending_of (main w args) = Some (Return c) ->
  (c = 0 /\ (List.length args < 2)%nat /\ main w args = usage_shown) \/
  (c = -1 /\ (2 <= List.length args)%nat /\
   exists t s, events (main w args) = (t ++ [EvPrintf s])%list).
Proof.
  destruct (main_cases w args)
    as [[Hs E] | [(Hl & t & _ & Hp & Hne & E) | (Hl & o & _ & H)]].
  - rewrite E. intros H. inversion H. left. repeat split. exact Hs.
  - rewrite E. intros H. inversion H. right. repeat split; [exact Hl |].
    exact (only_prints_last t Hp Hne).
  - destruct H as [[_ E] | [(_ & _ & E) | (_ & _ & E)]]; rewrite E.
    + intros H. inversion H. right. repeat split; [exact Hl |].
      now exists [], msg_calibration_pair.
    + intros H. inversion H. right. repeat split; [exact Hl |].
      now exists [], msg_point_cloud.
    + unfold ending_of, events. run_demo_cases w o;
        intros H; inversion H; right; (repeat split; [exact Hl |]).
      * now exists [EvCameraStart LeftCamera; EvCameraStart RightCamera;
                    EvFileOpen fi true; EvFileOpen fe false],
                   (msg_failed_open fe).
      * now exists [EvCameraStart LeftCamera; EvCameraStart RightCamera;
                    EvFileOpen fi false], (msg_failed_open fi).
      * now exists [EvCameraStart LeftCamera; EvCameraStart RightCamera;
                    EvFileOpen fi false], (msg_failed_open fi).
      * now exists [EvCameraStart LeftCamera; EvCameraStart RightCamera;
                    EvFileOpen fi false], (msg_failed_open fi).
Qed.

Lemma return_codes_witness : main bare_world ["-p"] = usage_shown.
Proof.
  destruct (return_codes bare_world ["-p"] 0) as [(_ & _ & H) | (H & _)].
  - reflexivity.
  - exact H.
  - discriminate H.
Defined.

(** X10: a run that starts a camera has read the whole command line
    without an error and has passed both checks: the two calibration
    names are both set or both null, and the point-cloud name is set only
    with them.  The left camera is the first thing such a run touches; a
    run that ends at a parameter error starts no camera. *)
Theorem camera_start_after_checks (w : world) args :
  camera_started (events (main w args)) ->
  exists o t,
    (2 <= List.length args)%nat /\
    parse_loop args initial_options = ret o /\
    is_given (intrinsic_filename o) = is_given (extrinsic_filename o) /\
    (is_given (point_cloud_filename o) = true ->
     is_given (extrinsic_filename o) = true) /\
    main w args = run_demo w o /\
    events (main w args) = EvCameraStart LeftCamera :: t.
Proof.
  intros [c Hc].
  destruct (main_cases w args)
    as [[_ E] | [(_ & t & _ & Hp & _ & E) | (Hl & o & Ho & H)]].
  - rewrite E in Hc. simpl in Hc. decompose [or] Hc; discriminate || contradiction.
  - rewrite E in Hc. exfalso. exact (only_prints_no_start _ _ Hp Hc).
  - destruct H as [[_ E] | [(_ & _ & E) | (Hx & Hpc & E)]].
    + rewrite E in Hc. simpl in Hc. decompose [or] Hc; discriminate || contradiction.
    + rewrite E in Hc. simpl in Hc. decompose [or] Hc; discriminate || contradiction.
    + exists o, (tl (events (run_demo w o))).
      split; [exact Hl |]. split; [exact Ho |].
      split; [now apply xorb_eq |].
      split.
      { intros Hg. rewrite Hg, andb_true_r in Hpc.
        now apply negb_false_iff in Hpc. }
      split; [exact E |].
      rewrite E. unfold events. clear. run_demo_cases w o; reflexivity.
Qed.

Lemma camera_start_after_checks_witness :
  exists o t,
    (2 <= List.length [nodisplay_opt; "--algorithm=bm"])%nat /\
    parse_loop [nodisplay_opt; "--algorithm=bm"] initial_options = ret o /\
    is_given (intrinsic_filename o) = is_given (extrinsic_filename o) /\
    (is_given (point_cloud_filename o) = true ->
     is_given (extrinsic_filename o) = true) /\
    main bare_world [nodisplay_opt; "--algorithm=bm"] = run_demo bare_world o /\
    events (main bare_world [nodisplay_opt; "--algorithm=bm"]) =
      EvCameraStart LeftCamera :: t.
Proof.
  apply (camera_start_after_checks bare_world
           [nodisplay_opt; "--algorithm=bm"]).
  exists LeftCamera. simpl. left. reflexivity.
Defined.

(** ** Where the file names come from *)

Lemma filename_of_set flag a v o :
  In flag value_flags -> In a value_flags ->
  filename_of flag (set_filename a v o) =
  if String.eqb flag a then v else filename_of flag o.
Proof.
  unfold value_flags. simpl.
  intros [<- | [<- | [<- | [<- | []]]]] [<- | [<- | [<- | [<- | []]]]];
    reflexivity.
Qed.

Lemma classify_next_filename_of flag a o o' :
  In flag value_flags -> classify a o = Next o' ->
  filename_of flag o' = filename_of flag o.
Proof.
  intros Hin Hc.
  apply classify_next_filenames in Hc as (Hi & He & Hd & Hp).
  revert Hin. unfold value_flags. simpl.
  intros [<- | [<- | [<- | [<- | []]]]]; assumption.
Qed.

Lemma filename_provenance flag f args : forall o0 o,
  In flag value_flags ->
  parse_loop args o0 = ret o ->
  filename_of flag o = Some f ->
  filename_of flag o0 = Some f \/
  exists pre rest, args = (pre ++ flag :: f :: rest)%list.
Proof.
  remember (List.length args) as n eqn:Hn. revert args Hn.
  induction n as [n IH] using lt_wf_ind. intros args -> o0 o Hflag.
  destruct args as [| a r]; simpl.
  - intros H. inversion H; subst. now left.
  - destruct (classify a o0) as [output code | o1 | k] eqn:Hc.
    + apply classify_stop in Hc as (_ & t & -> & _ & _). discriminate.
    + intros Hp Hf.
      destruct (IH (List.length r) ltac:(simpl; lia) r eq_refl o1 o
                  Hflag Hp Hf) as [H | (pre & rest & ->)].
      * left. now rewrite <- (classify_next_filename_of flag a o0 o1).
      * right. now exists (a :: pre), rest.
    + apply classify_take in Hc as (Hin & ->).
      destruct r as [| v r'].
      * intros H Hf. inversion H; subst.
        rewrite filename_of_set in Hf by assumption.
        destruct (String.eqb flag a); [discriminate | now left].
      * intros Hp Hf.
        destruct (IH (List.length r') ltac:(simpl; lia) r' eq_refl _ o
                    Hflag Hp Hf) as [H | (pre & rest & ->)].
        -- rewrite filename_of_set in H by assumption.
           destruct (String.eqb_spec flag a) as [<- | _].
           ++ inversion H; subst. right. now exists [], r'.
           ++ now left.
        -- right. now exists (a :: v :: pre), rest.
Qed.

(** X11: a file name that is set when the loop ends stands on the
    command line right behind its flag: for each of [-i], [-e], [-o],
    [-p], the name is an argument and the argument before it is the
    flag. *)
Theorem file_name_follows_flag flag f args o :
  In flag value_flags ->
  parse_loop args initial_options = ret o ->
  filename_of flag o = Some f ->
  exists pre rest, args = (pre ++ flag :: f :: rest)%list.
Proof.
  intros Hflag Hp Hf.
  destruct (filename_provenance flag f args initial_options o Hflag Hp Hf)
    as [H | H]; [| exact H].
  revert Hflag H. unfold value_flags. simpl.
  intros [<- | [<- | [<- | [<- | []]]]]; discriminate.
Qed.

Lemma file_name_follows_flag_witness :
  exists pre rest,
    [nodisplay_opt; "-e"; "extr.yml"; "-i"; "intr.yml"] =
    (pre ++ "-e" :: "extr.yml" :: rest)%list.
Proof.
  apply (file_name_follows_flag "-e" "extr.yml"
           [nodisplay_opt; "-e"; "extr.yml"; "-i"; "intr.yml"]
           (mkOptions STEREO_SGBM 0 0 true (Some "intr.yml")
              (Some "extr.yml") None None)).
  - simpl. auto.
  - reflexivity.
  - reflexivity.
Defined.

(** X12: the only files that a run tries to open are the two calibration
    files: each name it opens stands on the command line right behind
    [-i] or [-e], and it is opened after both cameras have started.  The
    names given with [-o] and [-p] are never opened. *)
Theorem opened_files_are_calibration_files (w : world) args f b :
  In (EvFileOpen f b) (events (main w args)) ->
  (exists flag pre rest,
     (flag = "-i" \/ flag = "-e") /\
     args = (pre ++ flag :: f :: rest)%list) /\
  b = file_opens w f /\
  camera_starts w LeftCamera = true /\
  camera_starts w RightCamera = true /\
  exists t, events (main w args) =
            EvCameraStart LeftCamera :: EvCameraStart RightCamera :: t.
Proof.
  intros Hin.
  destruct (main_cases w args)
    as [[_ E] | [(_ & t & _ & Hp & _ & E) | (Hl & o & Ho & H)]].
  - rewrite E in Hin. simpl in Hin.
    decompose [or] Hin; discriminate || contradiction.
  - rewrite E in Hin. exfalso. exact (only_prints_no_open _ _ _ Hp Hin).
  - destruct H as [[_ E] | [(_ & _ & E) | (_ & _ & E)]]; rewrite E in *.
    + simpl in Hin. decompose [or] Hin; discriminate || contradiction.
    + simpl in Hin. decompose [or] Hin; discriminate || contradiction.
    + assert (Hname : intrinsic_filename o = Some f \/
                      extrinsic_filename o = Some f ->
                      exists flag pre rest,
                        (flag = "-i" \/ flag = "-e") /\
                        args = (pre ++ flag :: f :: rest)%list).
      { intros [Hi | He].
        - destruct (filename_provenance "-i" f args initial_options o)
            as [H | (pre & rest & ->)];
            try assumption; [simpl; auto | discriminate H |].
          exists "-i", pre, rest. auto.
        - destruct (filename_provenance "-e" f args initial_options o)
            as [H | (pre & rest & ->)];
            try assumption; [simpl; auto | discriminate H |].
          exists "-e", pre, rest. auto. }
      revert Hin Hname. unfold events.
      destruct (camera_starts w LeftCamera) eqn:HL,
               (camera_starts w RightCamera) eqn:HR;
        unfold run_demo, start_camera, load_calibration, open_storage;
        rewrite ?HL, ?HR;
        destruct (intrinsic_filename o) as [fi |];
        destruct (extrinsic_filename o) as [fe |];
        try destruct (file_opens w fi) eqn:Hfi;
        try destruct (file_opens w fe) eqn:Hfe;
        simpl; intros Hin Hname;
        decompose [or] Hin; try discriminate; try contradiction;
        match goal with
        | E : EvFileOpen _ _ = EvFileOpen _ _ |- _ => inversion E; subst
        end;
        (split; [apply Hname; auto |]);
        (split; [congruence |]);
        (split; [reflexivity |]); (split; [reflexivity |]);
        eexists; reflexivity.
Qed.

Lemma opened_files_are_calibration_files_witness :
  exists flag pre rest,
    (flag = "-i" \/ flag = "-e") /\
    ["-o"; "d.png"; "-i"; "a"; "-e"; "b"] =
    (pre ++ flag :: "b" :: rest)%list.
Proof.
  destruct (opened_files_are_calibration_files ready_world
              ["-o"; "d.png"; "-i"; "a"; "-e"; "b"] "b" true)
    as (H & _).
  - simpl. right. right. right. left. reflexivity.
  - exact H.
Defined.

(** ** Flags that are read and not used *)

Lemma classify_same a o1 o2 :
  same_but_unused o1 o2 ->
  match classify a o1, classify a o2 with
  | Stop out1 c1, Stop out2 c2 => out1 = out2 /\ c1 = c2
  | Next o1', Next o2' => same_but_unused o1' o2'
  | Take k1, Take k2 => forall v, same_but_unused (k1 v) (k2 v)
  | _, _ => False
  end.
Proof.
  intros (Ha & Hs & Hn & Hi & He & Hp). unfold classify.
  repeat match goal with
         | |- context [if ?b then _ else _] => destruct b
         | |- context [match sscanf_d ?x with Some _ => _ | None => _ end] =>
             destruct (sscanf_d x)
         end;
    try (split; reflexivity);
    try intros v; unfold same_but_unused; simpl; repeat split; assumption.
Qed.

Lemma parse_loop_same args : forall o1 o2,
  same_but_unused o1 o2 ->
  (exists o1' o2', parse_loop args o1 = ret o1' /\
                   parse_loop args o2 = ret o2' /\
                   same_but_unused o1' o2') \/
  (exists t h, parse_loop args o1 = (t, inr h) /\
               parse_loop args o2 = (t, inr h)).
Proof.
  remember (List.length args) as n eqn:Hn. revert args Hn.
  induction n as [n IH] using lt_wf_ind. intros args -> o1 o2 Hsame.
  destruct args as [| a r]; simpl.
  - left. now exists o1, o2.
  - pose proof (classify_same a o1 o2 Hsame) as Hc.
    destruct (classify a o1) as [out1 c1 | o1' | k1],
             (classify a o2) as [out2 c2 | o2' | k2];
      try contradiction.
    + destruct Hc as [-> ->]. right.
      destruct out2 as [t [[] | h]]; simpl;
        eexists; eexists; split; reflexivity.
    + apply (IH (List.length r)); [simpl; lia | reflexivity | exact Hc].
    + destruct r as [| v r'].
      * left. exists (k1 None), (k2 None).
        split; [reflexivity | split; [reflexivity | apply Hc]].
      * apply (IH (List.length r')); [simpl; lia | reflexivity | apply Hc].
Qed.

Lemma after_parsing_same (w : world) o1 o2 :
  same_but_unused o1 o2 -> after_parsing w o1 = after_parsing w o2.
Proof.
  destruct o1, o2. unfold same_but_unused. simpl.
  intros (-> & -> & -> & -> & -> & ->). reflexivity.
Qed.

Lemma run_same (w : world) args o1 o2 :
  same_but_unused o1 o2 ->
  bind (parse_loop args o1) (after_parsing w) =
  bind (parse_loop args o2) (after_parsing w).
Proof.
  intros Hsame.
  destruct (parse_loop_same args o1 o2 Hsame)
    as [(o1' & o2' & -> & -> & Hs) | (t & h & -> & ->)].
  - rewrite !bind_ret. now apply after_parsing_same.
  - reflexivity.
Qed.

(** X13: [--no-display] and the file given with [-o] are read and then
    never used.  Put in at a place where the loop reads a flag, on a
    command line that has two arguments or more without them, they change
    nothing: the run prints, starts, opens and ends as without them, and
    enters the loop over the frames with the same parameters. *)
Theorem unused_flags_change_nothing (w : world) pre rest o :
  loop_at pre initial_options [] o ->
  (2 <= List.length (pre ++ rest))%nat ->
  main w (pre ++ nodisplay_opt :: rest)%list = main w (pre ++ rest)%list /\
  forall f, main w (pre ++ "-o" :: f :: rest)%list = main w (pre ++ rest)%list.
Proof.
  intros Hat Hlen.
  assert (Hreach : forall m, parse_loop (pre ++ m)%list initial_options =
                             parse_loop m o).
  { intros m. apply (parse_loop_at _ _ _ _ (loop_at_app _ _ _ _ m Hat)). }
  rewrite length_app in Hlen.
  split; [| intros f];
    rewrite !main_parses by (rewrite length_app; simpl; lia);
    rewrite !Hreach; simpl; apply run_same;
    unfold same_but_unused; simpl; repeat split.
Qed.

Lemma unused_flags_change_nothing_witness :
  main ready_world
    (["--algorithm=bm"] ++ nodisplay_opt :: ["--blocksize=5"])%list =
  main ready_world (["--algorithm=bm"] ++ ["--blocksize=5"])%list.
Proof.
  apply (unused_flags_change_nothing ready_world ["--algorithm=bm"]
           ["--blocksize=5"] (set_alg STEREO_BM initial_options)).
  - eapply loop_next; [apply loop_start | reflexivity].
  - simpl. lia.
Defined.

(** ** When the demo runs *)

(** X14: [main] enters the loop over the frames exactly when the command
    line has two arguments or more, the loop over them ends without an
    error, the two calibration names are both set or both null, the
    point-cloud name is set only with them, both cameras start, and each
    calibration file that is named can be opened. *)
Theorem enters_frame_loop_iff (w : world) args :
  (exists p, ending_of (main w args) = Some (FrameLoop p)) <->
  (exists o,
     (2 <= List.length args)%nat /\
     parse_loop args initial_options = ret o /\
     is_given (intrinsic_filename o) = is_given (extrinsic_filename o) /\
     (is_given (point_cloud_filename o) = true ->
      is_given (extrinsic_filename o) = true) /\
     camera_starts w LeftCamera = true /\
     camera_starts w RightCamera = true /\
     (forall f, intrinsic_filename o = Some f \/
                extrinsic_filename o = Some f -> file_opens w f = true)).
Proof.
  split.
  - intros [p Hend].
    destruct (main_cases w args)
      as [[_ E] | [(_ & t & _ & _ & _ & E) | (Hl & o & Ho & H)]];
      try (rewrite E in Hend; discriminate).
    destruct H as [[_ E] | [(_ & _ & E) | (Hx & Hpc & E)]];
      try (rewrite E in Hend; discriminate).
    exists o. split; [exact Hl |]. split; [exact Ho |].
    split; [now apply xorb_eq |].
    split.
    { intros Hg. rewrite Hg, andb_true_r in Hpc.
      now apply negb_false_iff in Hpc. }
    rewrite E in Hend. revert Hend Hx. unfold ending_of.
    destruct (camera_starts w LeftCamera) eqn:HL,
             (camera_starts w RightCamera) eqn:HR;
      unfold run_demo, start_camera, load_calibration, open_storage;
      rewrite ?HL, ?HR;
      destruct (intrinsic_filename o) as [fi |];
      destruct (extrinsic_filename o) as [fe |];
      try destruct (file_opens w fi) eqn:Hfi;
      try destruct (file_opens w fe) eqn:Hfe;
      simpl; try discriminate; intros _ _;
      (split; [reflexivity |]); (split; [reflexivity |]);
      intros f [H | H]; inversion H; subst; assumption.
  - intros (o & Hl & Ho & Hpair & Hpc & HL & HR & Hopen).
    rewrite (main_parses w args Hl), Ho, bind_ret.
    unfold after_parsing, check_calibration_pair, check_point_cloud.
    rewrite Hpair, xorb_nilpotent, bind_ret.
    assert (Hcloud : negb (is_given (extrinsic_filename o)) &&
                     is_given (point_cloud_filename o) = false).
    { destruct (is_given (point_cloud_filename o));
        [rewrite Hpc by reflexivity |]; now rewrite ?andb_false_r. }
    rewrite Hcloud, bind_ret.
    exists (matcher_setup o (color_width w LeftCamera)).
    unfold ending_of, run_demo, start_camera, load_calibration, open_storage.
    rewrite HL, HR.
    destruct (intrinsic_filename o) as [fi |],
             (extrinsic_filename o) as [fe |];
      try discriminate; [| reflexivity].
    rewrite (Hopen fi), (Hopen fe) by auto. reflexivity.
Qed.

Lemma enters_frame_loop_iff_witness :
  exists p,
    ending_of (main ready_world ["-i"; "intr.yml"; "-e"; "extr.yml"]) =
    Some (FrameLoop p).
Proof.
  apply (proj2 (enters_frame_loop_iff ready_world
                  ["-i"; "intr.yml"; "-e"; "extr.yml"])).
  exists (mkOptions STEREO_SGBM 0 0 false (Some "intr.yml")
            (Some "extr.yml") None None).
  repeat split; simpl; try reflexivity; try lia; auto.
Defined.

(** * The variables and the command line *)

(** ** The file names in effect *)

Lemma is_value_flag_in a : is_value_flag a = true <-> In a value_flags.
Proof.
  unfold is_value_flag. rewrite existsb_exists. split.
  - intros (x & Hin & Heq). apply String.eqb_eq in Heq. now subst.
  - intros Hin. exists a. split; [exact Hin | apply String.eqb_refl].
Qed.

Lemma classify_take_value a o k :
  classify a o = Take k -> is_value_flag a = true.
Proof.
  intros Hc. apply is_value_flag_in. now apply classify_take in Hc.
Qed.

Lemma classify_next_not_value a o o' :
  classify a o = Next o' -> is_value_flag a = false.
Proof.
  intros Hc. destruct (is_value_flag a) eqn:E; [| reflexivity].
  apply is_value_flag_in in E.
  rewrite (classify_value_flag a o E) in Hc. discriminate.
Qed.

(** After the loop each file name is the one in effect on the command
    line, on top of what the variable held before. *)
Lemma parse_loop_flag_value flag args : forall o0 o,
  In flag value_flags ->
  parse_loop args o0 = ret o ->
  filename_of flag o =
  last_value flag (read_flags args) (filename_of flag o0).
Proof.
  remember (List.length args) as n eqn:Hn. revert args Hn.
  induction n as [n IH] using lt_wf_ind. intros args -> o0 o Hflag.
  destruct args as [| a r]; cbn [parse_loop read_flags].
  - intros H. inversion H; subst. reflexivity.
  - destruct (classify a o0) as [output code | o1 | k] eqn:Hc.
    + apply classify_stop in Hc as (_ & t & -> & _ & _). discriminate.
    + intros Hp.
      rewrite (classify_next_not_value a o0 o1 Hc). cbn [last_value].
      assert (Hne : String.eqb a flag = false).
      { destruct (String.eqb_spec a flag) as [-> | _]; [| reflexivity].
        apply is_value_flag_in in Hflag.
        rewrite (classify_next_not_value flag o0 o1 Hc) in Hflag.
        discriminate. }
      rewrite Hne,
        <- (classify_next_filename_of flag a o0 o1 Hflag Hc).
      apply (IH (List.length r)); [simpl; lia | reflexivity | exact Hflag
                                  | exact Hp].
    + rewrite (classify_take_value a o0 k Hc).
      apply classify_take in Hc as (Hin & ->).
      destruct r as [| v r']; cbn [last_value].
      * intros H. inversion H; subst.
        rewrite filename_of_set by assumption.
        now rewrite String.eqb_sym.
      * intros Hp.
        rewrite (IH (List.length r') ltac:(simpl; lia) r' eq_refl _ o
                   Hflag Hp).
        rewrite filename_of_set by assumption.
        now rewrite String.eqb_sym.
Qed.

Lemma parsed_file_names args o :
  parse_loop args initial_options = ret o ->
  intrinsic_filename o = flag_value "-i" args /\
  extrinsic_filename o = flag_value "-e" args /\
  disparity_filename o = flag_value "-o" args /\
  point_cloud_filename o = flag_value "-p" args.
Proof.
  intros Hp. unfold flag_value.
  repeat split;
    [ apply (parse_loop_flag_value "-i" args initial_options o)
    | apply (parse_loop_flag_value "-e" args initial_options o)
    | apply (parse_loop_flag_value "-o" args initial_options o)
    | apply (parse_loop_flag_value "-p" args initial_options o) ];
    try exact Hp; simpl; auto.
Qed.

(** ** The check of the calibration pair *)

(** C3, as stated, fails: on [-i a -i] the intrinsics flag is present
    with a value and no extrinsics flag is, yet the trailing [-i] has put
    the null pointer in place of the name, the check passes and the
    cameras are started; and on [-i a -e b -e] both flags are present
    with a value, yet the run ends at the check with -1. *)
Lemma pair_check_after_cleared_name :
  loop_at ["-i"; "a"; "-i"] initial_options ["-i"]
    (set_intrinsic_filename (Some "a") initial_options) /\
  ~ In "-e" ["-i"; "a"; "-i"] /\
  main ready_world ["-i"; "a"; "-i"] =
    ([EvCameraStart LeftCamera; EvCameraStart RightCamera],
     inr (FrameLoop (matcher_setup initial_options 640))) /\
  main ready_world ["-i"; "a"; "-e"; "b"; "-e"] = calibration_pair_error.
Proof.
  split.
  - apply (loop_take _ _ "-i" "a" ["-i"] initial_options
             (fun v => set_intrinsic_filename v initial_options));
      [apply loop_start | reflexivity].
  - split; [| split; reflexivity].
    simpl. intros [H | [H | [H | []]]]; discriminate.
Qed.

(** C3, amended: for every command line on which the loop over the
    arguments ends without an error, the intrinsics and the extrinsics
    file name are the ones in effect on the command line (the value of
    the last [-i], of the last [-e], that the loop reads as a flag; none
    when there is no such flag or when the last one is the last argument
    and so has no value); if exactly one of the two is in effect [main]
    prints the error message and returns -1, and if both or neither are
    the check lets the run through to the next check. *)
Theorem calibration_pair_on_command_line (w : world) args o :
  parse_loop args initial_options = ret o ->
  (intrinsic_filename o = flag_value "-i" args /\
   extrinsic_filename o = flag_value "-e" args) /\
  (xorb (is_given (flag_value "-i" args)) (is_given (flag_value "-e" args))
   = true ->
   main w args = calibration_pair_error) /\
  (xorb (is_given (flag_value "-i" args)) (is_given (flag_value "-e" args))
   = false ->
   check_calibration_pair o = ret tt /\
   ((2 <= List.length args)%nat ->
    main w args = (check_point_cloud o ;; run_demo w o))).
Proof.
  intros Hp.
  destruct (parsed_file_names args o Hp) as (Hi & He & _ & _).
  split; [now split |].
  rewrite <- Hi, <- He.
  exact (pair_check_on_variables w args o Hp).
Qed.

Lemma calibration_pair_on_command_line_witness :
  main bare_world ["--blocksize=5"; "-i"; "intr.yml"] =
  calibration_pair_error.
Proof.
  destruct (calibration_pair_on_command_line bare_world
              ["--blocksize=5"; "-i"; "intr.yml"]
              (set_intrinsic_filename (Some "intr.yml")
                 (set_SADWindowSize 5 initial_options)))
    as (_ & Hone & _).
  - reflexivity.
  - apply Hone. reflexivity.
Defined.

(** ** The check of the point-cloud flag *)

(** C4, as stated, fails: on [--no-display -p] and on [-p cloud.pcd -p]
    the flag [-p] is present and neither calibration flag is, yet the
    trailing [-p] leaves the null pointer as the name, neither check
    stops the run, and the cameras are started. *)
Lemma point_cloud_flag_without_name_runs :
  In "-p" [nodisplay_opt; "-p"] /\
  ~ In "-i" [nodisplay_opt; "-p"] /\ ~ In "-e" [nodisplay_opt; "-p"] /\
  main ready_world [nodisplay_opt; "-p"] =
    ([EvCameraStart LeftCamera; EvCameraStart RightCamera],
     inr (FrameLoop
            (matcher_setup (set_no_display true initial_options) 640))) /\
  main ready_world ["-p"; "cloud.pcd"; "-p"] =
    ([EvCameraStart LeftCamera; EvCameraStart RightCamera],
     inr (FrameLoop (matcher_setup initial_options 640))).
Proof.
  split; [simpl; auto |].
  split; [simpl; intros [H | [H | []]]; discriminate |].
  split; [simpl; intros [H | [H | []]]; discriminate |].
  split; reflexivity.
Qed.

(** C4, amended: for every command line on which the loop over the
    arguments ends without an error, the point-cloud file name is the one
    in effect on the command line (the value of the last [-p] that the
    loop reads as a flag; none when that flag is the last argument); if a
    point-cloud name is in effect and the intrinsics and extrinsics names
    are not both in effect, [main] prints one error message and returns
    -1, before any camera is started. *)
Theorem point_cloud_on_command_line (w : world) args o :
  parse_loop args initial_options = ret o ->
  point_cloud_filename o = flag_value "-p" args /\
  (is_given (flag_value "-p" args) = true ->
   is_given (flag_value "-i" args) && is_given (flag_value "-e" args)
   = false ->
   main w args =
     (if xorb (is_given (flag_value "-i" args))
              (is_given (flag_value "-e" args))
      then calibration_pair_error else point_cloud_error) /\
   ending_of (main w args) = Some (Return (-1)) /\
   only_prints (events (main w args)) /\ events (main w args) <> []).
Proof.
  intros Hp.
  destruct (parsed_file_names args o Hp) as (Hi & He & _ & Hc).
  split; [exact Hc |].
  rewrite <- Hi, <- He, <- Hc.
  exact (point_cloud_check_on_variables w args o Hp).
Qed.

Lemma point_cloud_on_command_line_witness :
  main bare_world ["-o"; "disp.png"; "-p"; "cloud.pcd"] = point_cloud_error.
Proof.
  destruct (point_cloud_on_command_line bare_world
              ["-o"; "disp.png"; "-p"; "cloud.pcd"]
              (set_point_cloud_filename (Some "cloud.pcd")
                 (set_disparity_filename (Some "disp.png")
                    initial_options)))
    as (_ & Hcloud).
  - reflexivity.
  - destruct Hcloud as (Hmain & _); [reflexivity | reflexivity |].
    exact Hmain.
Defined.

(** ** The numbers in effect *)

(** Two option names that differ in their third character do not both
    start an argument. *)
Lemma prefix_third_char c1 c2 x s1 d1 d2 y s2 a :
  x <> y ->
  String.prefix (String c1 (String c2 (String x s1))) a = true ->
  String.prefix (String d1 (String d2 (String y s2))) a = false.
Proof.
  intros Hne. destruct a as [| a1 [| a2 [| a3 a']]]; cbn [String.prefix];
    repeat match goal with
           | |- context [ascii_dec ?u ?v] => destruct (ascii_dec u v)
           end;
    intros; try discriminate; try reflexivity; congruence.
Qed.

Lemma classify_next_max_disparity a o0 o1 cur :
  classify a o0 = Next o1 ->
  holds_number cur (numberOfDisparities o0) ->
  holds_number
    (if strncmp_eq a maxdisp_opt
     then sscanf_d (advance (String.length maxdisp_opt) a) else cur)
    (numberOfDisparities o1).
Proof.
  unfold classify. destruct (strncmp_eq a algorithm_opt) eqn:Ea.
  { assert (Em : strncmp_eq a maxdisp_opt = false).
    { revert Ea. unfold strncmp_eq, algorithm_opt, maxdisp_opt.
      apply prefix_third_char. discriminate. }
    rewrite Em. cbv zeta.
    repeat match goal with
           | |- context [if strcmp_eq ?x ?y then _ else _] =>
               destruct (strcmp_eq x y)
           end;
      simpl; intros H; inversion H; subst; trivial. }
  destruct (strncmp_eq a maxdisp_opt) eqn:Em.
  { destruct (sscanf_d _) as [d |]; [| discriminate].
    destruct (d <? 1) eqn:E1; [discriminate |].
    destruct (Z.rem d 16 =? 0); [| discriminate].
    simpl. intros H _. inversion H; subst. simpl.
    apply Z.ltb_ge in E1. split; [reflexivity | lia]. }
  repeat match goal with
         | |- context [if ?b then _ else _] => destruct b
         | |- context [match sscanf_d ?x with Some _ => _ | None => _ end] =>
             destruct (sscanf_d x)
         end;
    intros H; inversion H; subst; trivial.
Qed.

Lemma classify_next_block_size a o0 o1 cur :
  classify a o0 = Next o1 ->
  holds_number cur (SADWindowSize o0) ->
  holds_number
    (if strncmp_eq a blocksize_opt
     then sscanf_d (advance (String.length blocksize_opt) a) else cur)
    (SADWindowSize o1).
Proof.
  unfold classify. destruct (strncmp_eq a algorithm_opt) eqn:Ea.
  { assert (Eb : strncmp_eq a blocksize_opt = false).
    { revert Ea. unfold strncmp_eq, algorithm_opt, blocksize_opt.
      apply prefix_third_char. discriminate. }
    rewrite Eb. cbv zeta.
    repeat match goal with
           | |- context [if strcmp_eq ?x ?y then _ else _] =>
               destruct (strcmp_eq x y)
           end;
      simpl; intros H; inversion H; subst; trivial. }
  destruct (strncmp_eq a maxdisp_opt) eqn:Em.
  { assert (Eb : strncmp_eq a blocksize_opt = false).
    { revert Em. unfold strncmp_eq, maxdisp_opt, blocksize_opt.
      apply prefix_third_char. discriminate. }
    rewrite Eb.
    destruct (sscanf_d _) as [d |]; [| discriminate].
    destruct ((d <? 1) || negb (Z.rem d 16 =? 0)); [discriminate |].
    intros H. inversion H; subst. trivial. }
  destruct (strncmp_eq a blocksize_opt) eqn:Eb.
  { destruct (sscanf_d _) as [b |]; [| discriminate].
    destruct (b <? 1) eqn:E1; [discriminate |].
    destruct (Z.rem b 2 =? 1); [| discriminate].
    simpl. intros H _. inversion H; subst. simpl.
    apply Z.ltb_ge in E1. split; [reflexivity | lia]. }
  repeat match goal with
         | |- context [if ?b then _ else _] => destruct b
         end;
    intros H; inversion H; subst; trivial.
Qed.

(** After the loop a number variable holds the number in effect on the
    command line, on top of what it held before. *)
Lemma parse_loop_number (opt : string) (get : options -> Z) :
  (forall a o0 o1 cur,
     classify a o0 = Next o1 -> holds_number cur (get o0) ->
     holds_number
       (if strncmp_eq a opt
        then sscanf_d (advance (String.length opt) a) else cur)
       (get o1)) ->
  (forall flag v o, In flag value_flags ->
     get (set_filename flag v o) = get o) ->
  (forall flag, In flag value_flags -> strncmp_eq flag opt = false) ->
  forall args o0 o cur,
    parse_loop args o0 = ret o -> holds_number cur (get o0) ->
    holds_number (last_number_in opt (read_flags args) cur) (get o).
Proof.
  intros Hnext Hset Hflag args.
  remember (List.length args) as n eqn:Hn. revert args Hn.
  induction n as [n IH] using lt_wf_ind. intros args -> o0 o cur.
  destruct args as [| a r]; cbn [parse_loop read_flags].
  - intros H Hcur. inversion H; subst. exact Hcur.
  - destruct (classify a o0) as [output code | o1 | k] eqn:Hc.
    + apply classify_stop in Hc as (_ & t & -> & _ & _). discriminate.
    + intros Hp Hcur.
      rewrite (classify_next_not_value a o0 o1 Hc). cbn [last_number_in].
      apply (IH (List.length r) ltac:(simpl; lia) r eq_refl o1 o _ Hp).
      exact (Hnext a o0 o1 cur Hc Hcur).
    + rewrite (classify_take_value a o0 k Hc).
      apply classify_take in Hc as (Hin & ->).
      destruct r as [| v r']; cbn [last_number_in].
      * intros H Hcur. inversion H; subst.
        now rewrite (Hflag a Hin), Hset.
      * intros Hp Hcur. rewrite (Hflag a Hin).
        apply (IH (List.length r') ltac:(simpl; lia) r' eq_refl _ o _ Hp).
        now rewrite Hset.
Qed.

Lemma set_filename_numbers flag v o :
  In flag value_flags ->
  numberOfDisparities (set_filename flag v o) = numberOfDisparities o /\
  SADWindowSize (set_filename flag v o) = SADWindowSize o.
Proof.
  unfold value_flags. simpl.
  intros [<- | [<- | [<- | [<- | []]]]]; split; reflexivity.
Qed.

Lemma parsed_numbers args o :
  parse_loop args initial_options = ret o ->
  holds_number (last_number maxdisp_opt args) (numberOfDisparities o) /\
  holds_number (last_number blocksize_opt args) (SADWindowSize o).
Proof.
  intros Hp. unfold last_number. split.
  - apply (parse_loop_number maxdisp_opt numberOfDisparities)
      with (o0 := initial_options); try exact Hp; try reflexivity.
    + apply classify_next_max_disparity.
    + intros flag v o' Hin. now apply set_filename_numbers.
    + unfold value_flags. simpl.
      intros flag [<- | [<- | [<- | [<- | []]]]]; reflexivity.
  - apply (parse_loop_number blocksize_opt SADWindowSize)
      with (o0 := initial_options); try exact Hp; try reflexivity.
    + apply classify_next_block_size.
    + intros flag v o' Hin. now apply set_filename_numbers.
    + unfold value_flags. simpl.
      intros flag [<- | [<- | [<- | [<- | []]]]]; reflexivity.
Qed.

(** ** The parameters on entering the loop over the frames *)

(** X6: when [main] enters the loop over the frames and the left camera
    is 8 columns wide or more, the three matchers get the same number of
    disparities: the number read from the last [--max-disparity=] flag
    that the loop reads, or without such a flag
    [((width / 8) + 15) & -16]; it is a positive [int] divisible by 16,
    and the variational matcher gets its opposite as [minDisp].  Both
    windows are the number read from the last [--blocksize=] flag, or
    without such a flag 9 for block matching and 3 for the semi-global
    matcher; they are positive and odd.  The algorithm is the value of
    [alg] that the loop leaves, one for which a turn of the loop over the
    frames calls a matcher, and [fullDP] is set exactly for [hh]. *)
Theorem frame_loop_parameters (w : world) args p :
  ending_of (main w args) = Some (FrameLoop p) ->
  8 <= color_width w LeftCamera <= CInt.INT_MAX ->
  (bm_numberOfDisparities p =
     match last_number maxdisp_opt args with
     | Some d => d
     | None => default_disparities (color_width w LeftCamera)
     end /\
   0 < bm_numberOfDisparities p <= CInt.INT_MAX /\
   Z.rem (bm_numberOfDisparities p) 16 = 0 /\
   sgbm_numberOfDisparities p = bm_numberOfDisparities p /\
   var_minDisp p = - bm_numberOfDisparities p) /\
  (bm_SADWindowSize p =
     match last_number blocksize_opt args with Some b => b | None => 9 end /\
   sgbm_SADWindowSize p =
     match last_number blocksize_opt args with Some b => b | None => 3 end /\
   0 < bm_SADWindowSize p /\ Z.rem (bm_SADWindowSize p) 2 = 1 /\
   0 < sgbm_SADWindowSize p /\ Z.rem (sgbm_SADWindowSize p) 2 = 1) /\
  (exists o, parse_loop args initial_options = ret o /\
             algorithm p = alg o) /\
  select_matcher (algorithm p) <> None /\
  (sgbm_fullDP p = true <-> algorithm p = STEREO_HH).
Proof.
  intros Hend Hw.
  destruct (main_frame_loop w args p Hend) as (o & _ & Ho & ->).
  destruct (parse_loop_valid args _ o initial_options_valid Ho)
    as (Ha & Hn & Hs).
  destruct (parsed_numbers args o Ho) as (Hnum & Hwin).
  set (width := color_width w LeftCamera) in *.
  assert (Hchoose : choose_disparities (numberOfDisparities o) width =
                    match last_number maxdisp_opt args with
                    | Some d => d
                    | None => default_disparities width
                    end).
  { unfold choose_disparities.
    destruct (last_number maxdisp_opt args) as [d |]; simpl in Hnum.
    - destruct Hnum as [-> Hpos].
      now replace (d >? 0) with true by (symmetry; apply Z.gtb_lt; lia).
    - now rewrite Hnum. }
  assert (Hd : 0 < choose_disparities (numberOfDisparities o) width
               <= CInt.INT_MAX /\
               Z.rem (choose_disparities (numberOfDisparities o) width) 16
               = 0).
  { unfold choose_disparities. destruct Hn as [-> | (Hr & Hm)].
    - simpl.
      destruct (default_disparities_rounds_up width ltac:(lia))
        as (Hrem & Hb & Hmax & Hz).
      assert (default_disparities width <> 0) by (rewrite Hz; lia).
      assert (0 <= width / 8) by (apply Z.div_pos; lia).
      repeat split; try assumption; lia.
    - replace (numberOfDisparities o >? 0) with true
        by (symmetry; apply Z.gtb_lt; lia).
      repeat split; try assumption; lia. }
  destruct Hd as (Hr & Hrem).
  unfold matcher_setup. cbn [bm_numberOfDisparities sgbm_numberOfDisparities
    var_minDisp bm_SADWindowSize sgbm_SADWindowSize algorithm sgbm_fullDP].
  split; [| split; [| split; [| split]]].
  - rewrite <- Hchoose. repeat split; try assumption; try lia.
    apply wrap_in_int. unfold CInt.in_int, CInt.INT_MIN, CInt.INT_MAX in *.
    lia.
  - destruct (last_number blocksize_opt args) as [b |]; simpl in Hwin.
    + destruct Hwin as [Hb Hpos]. rewrite Hb in *.
      replace (b >? 0) with true by (symmetry; apply Z.gtb_lt; lia).
      destruct Hs as [-> | (_ & Hodd)]; [lia |].
      repeat split; try assumption; lia.
    + rewrite Hwin. simpl. repeat split; lia.
  - exists o. now split.
  - simpl in Ha.
    destruct Ha as [<- | [<- | [<- | [<- | []]]]]; discriminate.
  - apply Z.eqb_eq.
Qed.

Lemma frame_loop_parameters_witness :
  bm_numberOfDisparities
    (matcher_setup
       (set_SADWindowSize 7 (set_numberOfDisparities 64 initial_options))
       640) = 64 /\
  bm_SADWindowSize
    (matcher_setup
       (set_SADWindowSize 7 (set_numberOfDisparities 64 initial_options))
       640) = 7.
Proof.
  destruct (frame_loop_parameters ready_world
              ["--max-disparity=64"; "--blocksize=7"]
              (matcher_setup
                 (set_SADWindowSize 7
                    (set_numberOfDisparities 64 initial_options)) 640))
    as ((Hn & _) & (Hb & _) & _).
  - reflexivity.
  - simpl. unfold CInt.INT_MAX. lia.
  - split; [exact Hn | exact Hb].
Defined.
